(** * In-memory rate limiters: token bucket and leaky bucket

    A shallow embedding of [code/rate-limiter.py].

    Modelling choices.
    - Numbers.  The Python code mixes [int] configuration values with the
      [float] readings of [time.time()].  They are modelled as exact
      rationals [Q]; rounding of floating point is outside the model.
      Numeric comparisons of stored values are stated with [==] (equality
      of rationals as numbers), like Python's [==] on numbers.
    - The clock.  [time.time()] is the only input besides the identifier;
      every call receives the reading as its argument [now].
    - Dictionaries.  Each object owns two [dict]s keyed by the identifier
      (a string); they are [gmap string Q].  [d.get(k, v)] is
      [default v (d !! k)], [d[k] = v] is [<[k:=v]> d].
    - Mutation of [self] is explicit state passing: [allow_request]
      returns the answer together with the object after the call.
    - Exceptions.  The methods on numbers cannot raise.  Where a
      property is about raising, the methods are written a second time,
      operation by operation, over Python values that need not be
      numbers ([PyTokenBucket], [PyLeakyBucket]).
    - Threads.  The classes take no lock.  Calls that overlap are
      modelled by a schedule over the two parts of a call, its reads
      and its writes. *)

From Stdlib Require Import QArith Qminmax Lqa.
From stdpp Require Import gmap strings list fin_maps.

Local Open Scope Q_scope.

(** ** Python built-ins used by the source *)

(** [a < b] on numbers. *)
Definition py_lt (a b : Q) : bool :=
  match a ?= b with Lt => true | _ => false end.

(** [a > b] on numbers. *)
Definition py_gt (a b : Q) : bool := py_lt b a.

(** [min(a, b)]: the second argument is returned only when it is strictly
    smaller, as CPython does. *)
Definition py_min (a b : Q) : Q := if py_lt b a then b else a.

(** [max(a, b)]: the second argument is returned only when it is strictly
    greater. *)
Definition py_max (a b : Q) : Q := if py_gt b a then b else a.

(** [d.get(k, dflt)] *)
Definition dict_get (d : gmap string Q) (k : string) (dflt : Q) : Q :=
  default dflt (d !! k).

(** ** Outcome of a call that may raise *)

Inductive exn : Type :=
  | InvalidConfiguration
  | TypeError.

Inductive outcome (A : Type) : Type :=
  | Returned (a : A)
  | Raised (e : exn).
Arguments Returned {A} a.
Arguments Raised {A} e.

(** ** class InMemoryTokenBucket *)

Module InMemoryTokenBucket.

Record t : Type := mk {
  capacity : Q;
  refill_rate : Q;
  tokens : gmap string Q;
  timestamps : gmap string Q
}.

(** [__init__]: stores both arguments as they are, with two empty
    dictionaries.  There is no [raise] in the body. *)
Definition init (capacity refill_rate : Q) : outcome t :=
  Returned (mk capacity refill_rate ∅ ∅).

(** The value of the local [new_tokens]. *)
Definition new_tokens (self : t) (identifier : string) (now : Q) : Q :=
  let tokens0 := dict_get (tokens self) identifier (capacity self) in
  let last_refill := dict_get (timestamps self) identifier now in
  py_min (capacity self) (tokens0 + (now - last_refill) * refill_rate self).

Definition allow_request (self : t) (identifier : string) (now : Q)
  : bool * t :=
  let new_tokens := new_tokens self identifier now in
  if py_lt new_tokens 1 then (false, self)
  else
    (true,
     mk (capacity self) (refill_rate self)
        (<[identifier := new_tokens - 1]> (tokens self))
        (<[identifier := now]> (timestamps self))).

(** Successive calls made by the caller, each with its identifier and
    its clock reading; the answers are collected in call order. *)
Fixpoint run (self : t) (calls : list (string * Q)) : list bool * t :=
  match calls with
  | [] => ([], self)
  | (identifier, now) :: rest =>
      let (b, self1) := allow_request self identifier now in
      let (bs, self2) := run self1 rest in
      (b :: bs, self2)
  end.

End InMemoryTokenBucket.

(** ** class InMemoryLeakyBucket *)

Module InMemoryLeakyBucket.

Record t : Type := mk {
  capacity : Q;
  leak_rate : Q;
  water_level : gmap string Q;
  last_checked : gmap string Q
}.

Definition init (capacity leak_rate : Q) : outcome t :=
  Returned (mk capacity leak_rate ∅ ∅).

(** The value of the local [level] after it is reassigned, that is
    after the leak since [last_time] has been subtracted. *)
Definition level (self : t) (identifier : string) (now : Q) : Q :=
  let level0 := dict_get (water_level self) identifier 0 in
  let last_time := dict_get (last_checked self) identifier now in
  let leaked := (now - last_time) * leak_rate self in
  py_max 0 (level0 - leaked).

Definition allow_request (self : t) (identifier : string) (now : Q)
  : bool * t :=
  let level := level self identifier now in
  if py_gt (level + 1) (capacity self) then (false, self)
  else
    (true,
     mk (capacity self) (leak_rate self)
        (<[identifier := level + 1]> (water_level self))
        (<[identifier := now]> (last_checked self))).

Fixpoint run (self : t) (calls : list (string * Q)) : list bool * t :=
  match calls with
  | [] => ([], self)
  | (identifier, now) :: rest =>
      let (b, self1) := allow_request self identifier now in
      let (bs, self2) := run self1 rest in
      (b :: bs, self2)
  end.

End InMemoryLeakyBucket.

Module TB := InMemoryTokenBucket.
Module LB := InMemoryLeakyBucket.

(** The limiter of the Flask application, for either value of
    [RATE_LIMIT_ALGO]. *)
Definition token_limiter : TB.t := TB.mk 5 1 ∅ ∅.
Definition leaky_limiter : LB.t := LB.mk 5 1 ∅ ∅.

(** A natural number as a rational. *)
Definition Qnat (n : nat) : Q := inject_Z (Z.of_nat n).

(** What is known of one identifier's entry after a burst at time [now]:
    the number held for it, its time stamp, and the configuration. *)
Definition tb_after (self0 self : TB.t) (identifier : string) (now m : Q)
    (n : nat) : Prop :=
  dict_get (TB.tokens self) identifier (TB.capacity self) == m /\
  dict_get (TB.timestamps self) identifier now == now /\
  ((0 < n)%nat -> TB.timestamps self !! identifier = Some now) /\
  TB.capacity self = TB.capacity self0 /\
  TB.refill_rate self = TB.refill_rate self0.

Definition lb_after (self0 self : LB.t) (identifier : string) (now m : Q)
    (n : nat) : Prop :=
  dict_get (LB.water_level self) identifier 0 == m /\
  dict_get (LB.last_checked self) identifier now == now /\
  ((0 < n)%nat -> LB.last_checked self !! identifier = Some now) /\
  LB.capacity self = LB.capacity self0 /\
  LB.leak_rate self = LB.leak_rate self0.

(** Every stored number lies between zero and the capacity. *)
Definition tb_bounded (self : TB.t) : Prop :=
  map_Forall (fun _ v => 0 <= v <= TB.capacity self) (TB.tokens self).

Definition lb_bounded (self : LB.t) : Prop :=
  map_Forall (fun _ v => 0 <= v <= LB.capacity self) (LB.water_level self).

(** The persistence on rejection that the leaky bucket is said to have:
    a rejected call leaves the drained level and the clock reading in the
    dictionaries. *)
Definition lb_persists_on_rejection (self : LB.t) (identifier : string)
    (now : Q) : Prop :=
  LB.capacity self < LB.level self identifier now + 1 ->
  let self' := snd (LB.allow_request self identifier now) in
  (exists v, LB.water_level self' !! identifier = Some v /\
             v == LB.level self identifier now) /\
  (exists t, LB.last_checked self' !! identifier = Some t /\ t == now).

(** The clock guard that both classes are said to have: a reading [now]
    before the stored time stamp counts as no elapsed time. *)
Definition tb_clock_guard (self : TB.t) (identifier : string) (now : Q)
    : Prop :=
  forall last tok,
    TB.timestamps self !! identifier = Some last ->
    TB.tokens self !! identifier = Some tok ->
    now < last ->
    tok <= TB.new_tokens self identifier now /\
    (fst (TB.allow_request self identifier last) = true ->
     fst (TB.allow_request self identifier now) = true).

Definition lb_clock_guard (self : LB.t) (identifier : string) (now : Q)
    : Prop :=
  forall last lev,
    LB.last_checked self !! identifier = Some last ->
    LB.water_level self !! identifier = Some lev ->
    now < last ->
    LB.level self identifier now <= lev /\
    (fst (LB.allow_request self identifier last) = true ->
     fst (LB.allow_request self identifier now) = true).

(** The validation that both constructors are said to have. *)
Definition init_validates (capacity rate : Q) : Prop :=
  capacity <= 0 \/ rate <= 0 ->
  TB.init capacity rate = Raised InvalidConfiguration /\
  LB.init capacity rate = Raised InvalidConfiguration.

(** ** The Flask application *)

(** The object bound to the module-level name [rate_limiter]: an
    instance of one class or of the other. *)
Inductive limiter : Type :=
  | Token (tb : TB.t)
  | Leaky (lb : LB.t).

(** The module-level choice
    [if RATE_LIMIT_ALGO == 'token': ... else: ...], as a function of the
    constant [RATE_LIMIT_ALGO]. *)
Definition make_rate_limiter (RATE_LIMIT_ALGO : string) : outcome limiter :=
  if String.eqb RATE_LIMIT_ALGO "token" then
    match TB.init 5 1 with
    | Returned tb => Returned (Token tb)
    | Raised e => Raised e
    end
  else
    match LB.init 5 1 with
    | Returned lb => Returned (Leaky lb)
    | Raised e => Raised e
    end.

(** [rate_limiter.allow_request(user_id)]: the method of the class of
    the object. *)
Definition limiter_allow_request (rate_limiter : limiter)
    (identifier : string) (now : Q) : bool * limiter :=
  match rate_limiter with
  | Token tb =>
      let (b, tb') := TB.allow_request tb identifier now in (b, Token tb')
  | Leaky lb =>
      let (b, lb') := LB.allow_request lb identifier now in (b, Leaky lb')
  end.

(** [request.args.get(key, dflt)]: the arguments of the query string are
    pairs in the order of the URL, and [get] returns the first value
    given for the key. *)
Fixpoint args_get (args : list (string * string)) (key dflt : string)
    : string :=
  match args with
  | [] => dflt
  | (k, v) :: rest => if String.eqb k key then v else args_get rest key dflt
  end.

(** A response: the one member of the JSON object, and the status code
    (200 when the view returns the body alone). *)
Record response : Type := mk_response {
  body : string * string;
  status : nat
}.

(** The view function [api] of the route ["/api"]. *)
Definition api (rate_limiter : limiter) (args : list (string * string))
    (now : Q) : response * limiter :=
  let user_id := args_get args "user" "anonymous" in
  let (allowed, rate_limiter') :=
    limiter_allow_request rate_limiter user_id now in
  if allowed
  then (mk_response ("message", "Request allowed")%string 200%nat,
        rate_limiter')
  else (mk_response ("error", "Rate limit exceeded")%string 429%nat,
        rate_limiter').

(** Requests to ["/api"] handled one after the other, each with its
    query arguments and the clock reading of its call. *)
Fixpoint serve (rate_limiter : limiter)
    (requests : list (list (string * string) * Q))
    : list response * limiter :=
  match requests with
  | [] => ([], rate_limiter)
  | (args, now) :: rest =>
      let (r, rate_limiter1) := api rate_limiter args now in
      let (rs, rate_limiter2) := serve rate_limiter1 rest in
      (r :: rs, rate_limiter2)
  end.

(** ** Observations on a sequence of calls *)

(** The answers given to the calls of one identifier, in call order. *)
Fixpoint answers_for (identifier : string) (calls : list (string * Q))
    (answers : list bool) : list bool :=
  match calls, answers with
  | (i, _) :: calls', b :: answers' =>
      if decide (i = identifier)
      then b :: answers_for identifier calls' answers'
      else answers_for identifier calls' answers'
  | _, _ => []
  end.

(** The number of calls of one identifier that were admitted. *)
Definition admitted (identifier : string) (calls : list (string * Q))
    (answers : list bool) : nat :=
  length (filter (fun b : bool => b = true)
            (answers_for identifier calls answers)).

(** The calls of one identifier. *)
Definition calls_of (identifier : string) (calls : list (string * Q))
    : list (string * Q) :=
  filter (fun c : string * Q => c.1 = identifier) calls.

(** Two objects hold the same configuration and the same entries for
    one identifier. *)
Definition tb_agree_on (identifier : string) (s1 s2 : TB.t) : Prop :=
  TB.capacity s1 = TB.capacity s2 /\
  TB.refill_rate s1 = TB.refill_rate s2 /\
  TB.tokens s1 !! identifier = TB.tokens s2 !! identifier /\
  TB.timestamps s1 !! identifier = TB.timestamps s2 !! identifier.

Definition lb_agree_on (identifier : string) (s1 s2 : LB.t) : Prop :=
  LB.capacity s1 = LB.capacity s2 /\
  LB.leak_rate s1 = LB.leak_rate s2 /\
  LB.water_level s1 !! identifier = LB.water_level s2 !! identifier /\
  LB.last_checked s1 !! identifier = LB.last_checked s2 !! identifier.

(** The two dictionaries of an object have the same keys. *)
Definition tb_in_step (self : TB.t) : Prop :=
  dom (TB.tokens self) = dom (TB.timestamps self).

Definition lb_in_step (self : LB.t) : Prop :=
  dom (LB.water_level self) = dom (LB.last_checked self).

(** The calls that were admitted, in call order. *)
Fixpoint kept (calls : list (string * Q)) (answers : list bool)
    : list (string * Q) :=
  match calls, answers with
  | c :: calls', b :: answers' =>
      if b then c :: kept calls' answers' else kept calls' answers'
  | _, _ => []
  end.

(** The calls of [allow_request] that a sequence of requests to ["/api"]
    gives rise to: one per request, for the first value of the argument
    [user], or for ["anonymous"] when the argument is missing. *)
Definition calls_of_requests (requests : list (list (string * string) * Q))
    : list (string * Q) :=
  map (fun r : list (string * string) * Q =>
         (args_get r.1 "user" "anonymous", r.2)) requests.

(** The two responses of [api]. *)
Definition response_of (allowed : bool) : response :=
  if allowed
  then mk_response ("message", "Request allowed")%string 200%nat
  else mk_response ("error", "Rate limit exceeded")%string 429%nat.

(** The answers of a limiter object of either class to a sequence of
    calls. *)
Fixpoint limiter_run (rate_limiter : limiter) (calls : list (string * Q))
    : list bool * limiter :=
  match calls with
  | [] => ([], rate_limiter)
  | (identifier, now) :: rest =>
      let (b, l1) := limiter_allow_request rate_limiter identifier now in
      let (bs, l2) := limiter_run l1 rest in
      (b :: bs, l2)
  end.

(** ** The two classes on Python values *)

(** Python does not type the arguments of [__init__]: the capacity and
    the rate may be any value.  A value is here a number, or [None] for
    a value that is not a number. *)
Inductive pyval : Type :=
  | PyNum (q : Q)
  | PyNone.

(** Sequencing of calls that may raise. *)
Definition outcome_bind {A B : Type} (m : outcome A) (f : A -> outcome B)
    : outcome B :=
  match m with
  | Returned a => f a
  | Raised e => Raised e
  end.

Notation "x <- m ;; k" := (outcome_bind m (fun x => k))
  (at level 100, m at next level, right associativity).

(** [a - b], [a + b], [a * b] and [a < b] raise [TypeError] unless both
    operands are numbers. *)
Definition val_sub (a b : pyval) : outcome pyval :=
  match a, b with
  | PyNum x, PyNum y => Returned (PyNum (x - y))
  | _, _ => Raised TypeError
  end.

Definition val_add (a b : pyval) : outcome pyval :=
  match a, b with
  | PyNum x, PyNum y => Returned (PyNum (x + y))
  | _, _ => Raised TypeError
  end.

Definition val_mul (a b : pyval) : outcome pyval :=
  match a, b with
  | PyNum x, PyNum y => Returned (PyNum (x * y))
  | _, _ => Raised TypeError
  end.

Definition val_lt (a b : pyval) : outcome bool :=
  match a, b with
  | PyNum x, PyNum y => Returned (py_lt x y)
  | _, _ => Raised TypeError
  end.

(** [a > b] *)
Definition val_gt (a b : pyval) : outcome bool := val_lt b a.

(** [min(a, b)] compares [b < a]; [max(a, b)] compares [b > a]. *)
Definition val_min (a b : pyval) : outcome pyval :=
  c <- val_lt b a ;; Returned (if c then b else a).

Definition val_max (a b : pyval) : outcome pyval :=
  c <- val_gt b a ;; Returned (if c then b else a).

Module PyTokenBucket.

Record t : Type := mk {
  capacity : pyval;
  refill_rate : pyval;
  tokens : gmap string pyval;
  timestamps : gmap string pyval
}.

(** [__init__] has no check and no [raise]. *)
Definition init (capacity refill_rate : pyval) : outcome t :=
  Returned (mk capacity refill_rate ∅ ∅).

(** [allow_request], operation by operation; [now] is the float read
    from [time.time()]. *)
Definition allow_request (self : t) (identifier : string) (now : Q)
  : outcome (bool * t) :=
  let tokens0 := default (capacity self) (tokens self !! identifier) in
  let last_refill := default (PyNum now) (timestamps self !! identifier) in
  elapsed <- val_sub (PyNum now) last_refill ;;
  refill <- val_mul elapsed (refill_rate self) ;;
  total <- val_add tokens0 refill ;;
  new_tokens <- val_min (capacity self) total ;;
  low <- val_lt new_tokens (PyNum 1) ;;
  if low : bool then Returned (false, self)
  else
    rest <- val_sub new_tokens (PyNum 1) ;;
    Returned
      (true,
       mk (capacity self) (refill_rate self)
          (<[identifier := rest]> (tokens self))
          (<[identifier := PyNum now]> (timestamps self))).

(** Successive calls; the first exception ends the sequence. *)
Fixpoint run (self : t) (calls : list (string * Q))
  : outcome (list bool * t) :=
  match calls with
  | [] => Returned ([], self)
  | (identifier, now) :: rest =>
      r <- allow_request self identifier now ;;
      rs <- run r.2 rest ;;
      Returned (r.1 :: rs.1, rs.2)
  end.

(** An object whose configuration and stored values are all numbers. *)
Definition of_numbers (m : TB.t) : t :=
  mk (PyNum (TB.capacity m)) (PyNum (TB.refill_rate m))
     (PyNum <$> TB.tokens m) (PyNum <$> TB.timestamps m).

End PyTokenBucket.

Module PyLeakyBucket.

Record t : Type := mk {
  capacity : pyval;
  leak_rate : pyval;
  water_level : gmap string pyval;
  last_checked : gmap string pyval
}.

Definition init (capacity leak_rate : pyval) : outcome t :=
  Returned (mk capacity leak_rate ∅ ∅).

Definition allow_request (self : t) (identifier : string) (now : Q)
  : outcome (bool * t) :=
  let level0 := default (PyNum 0) (water_level self !! identifier) in
  let last_time := default (PyNum now) (last_checked self !! identifier) in
  elapsed <- val_sub (PyNum now) last_time ;;
  leaked <- val_mul elapsed (leak_rate self) ;;
  drained <- val_sub level0 leaked ;;
  level <- val_max (PyNum 0) drained ;;
  raised <- val_add level (PyNum 1) ;;
  over <- val_gt raised (capacity self) ;;
  if over : bool then Returned (false, self)
  else
    Returned
      (true,
       mk (capacity self) (leak_rate self)
          (<[identifier := raised]> (water_level self))
          (<[identifier := PyNum now]> (last_checked self))).

Fixpoint run (self : t) (calls : list (string * Q))
  : outcome (list bool * t) :=
  match calls with
  | [] => Returned ([], self)
  | (identifier, now) :: rest =>
      r <- allow_request self identifier now ;;
      rs <- run r.2 rest ;;
      Returned (r.1 :: rs.1, rs.2)
  end.

Definition of_numbers (m : LB.t) : t :=
  mk (PyNum (LB.capacity m)) (PyNum (LB.leak_rate m))
     (PyNum <$> LB.water_level m) (PyNum <$> LB.last_checked m).

End PyLeakyBucket.

(** ** Calls that overlap *)

(** Neither class takes a lock.  A call first reads: the clock and both
    dictionaries, up to the test that may return [False] (lines 15 to 21
    of the token bucket, 38 to 46 of the leaky bucket); an admitted call
    then writes both dictionaries (lines 23 and 24, 48 and 49).  Another
    call may run between the two. *)

(** The reads of the token bucket: [None] when the call returns [False],
    else the value of [new_tokens] that the writes will use. *)
Definition tb_reads (identifier : string) (now : Q) (self : TB.t)
    : option Q :=
  let new_tokens := TB.new_tokens self identifier now in
  if py_lt new_tokens 1 then None else Some new_tokens.

Definition tb_writes (identifier : string) (now : Q) (self : TB.t)
    (new_tokens : Q) : TB.t :=
  TB.mk (TB.capacity self) (TB.refill_rate self)
    (<[identifier := new_tokens - 1]> (TB.tokens self))
    (<[identifier := now]> (TB.timestamps self)).

(** The reads of the leaky bucket: [None] when the call returns
    [False], else the value of [level] that the writes will use. *)
Definition lb_reads (identifier : string) (now : Q) (self : LB.t)
    : option Q :=
  let level := LB.level self identifier now in
  if py_gt (level + 1) (LB.capacity self) then None else Some level.

Definition lb_writes (identifier : string) (now : Q) (self : LB.t)
    (level : Q) : LB.t :=
  LB.mk (LB.capacity self) (LB.leak_rate self)
    (<[identifier := level + 1]> (LB.water_level self))
    (<[identifier := now]> (LB.last_checked self)).

(** A call that has not started, one that has read and holds the value
    it is about to write, and one that has returned. *)
Inductive call_state : Type :=
  | Ready
  | Pending (v : Q)
  | Finished.

(** The object shared by the calls, the state of every call, and the
    answers returned so far, in the order of their return. *)
Record world (St : Type) : Type := mk_world {
  shared : St;
  pool : list call_state;
  returned : list bool
}.
Arguments mk_world {St} shared pool returned.
Arguments shared {St} w.
Arguments pool {St} w.
Arguments returned {St} w.

Section Schedule.
Context {St : Type}.
Variable reads : St -> option Q.
Variable writes : St -> Q -> St.

(** Call number [k] runs its next part: its reads, or its writes. *)
Definition step (w : world St) (k : nat) : world St :=
  match pool w !! k with
  | Some Ready =>
      match reads (shared w) with
      | None =>
          mk_world (shared w) (<[k := Finished]> (pool w))
            (returned w ++ [false])
      | Some v =>
          mk_world (shared w) (<[k := Pending v]> (pool w)) (returned w)
      end
  | Some (Pending v) =>
      mk_world (writes (shared w) v) (<[k := Finished]> (pool w))
        (returned w ++ [true])
  | _ => w
  end.

(** A schedule names, turn after turn, the call that runs next. *)
Definition exec (schedule : list nat) (w : world St) : world St :=
  foldl step w schedule.

(** The same call made [n] times, one after the other. *)
Fixpoint repeat_call (call : St -> bool * St) (n : nat) (s : St)
    : list bool * St :=
  match n with
  | O => ([], s)
  | S n' =>
      let (b, s1) := call s in
      let (bs, s2) := repeat_call call n' s1 in
      (b :: bs, s2)
  end.

End Schedule.

(** [N] calls, none of which has started. *)
Definition start {St : Type} (s : St) (N : nat) : world St :=
  mk_world s (replicate N Ready) [].

(** The schedule in which the calls run one after the other, in the
    given order: each call does its reads and its writes in a row. *)
Definition serial (order : list nat) : list nat :=
  flat_map (fun k => [k; k]) order.

(** The number of calls that returned [True]. *)
Definition admissions {St : Type} (w : world St) : nat :=
  length (filter (fun b : bool => b = true) (returned w)).

(** The serialization that both classes are said to have: [N] calls of
    one identifier at one clock reading, run under any schedule that
    lets all of them return, admit exactly [min N C]. *)
Definition tb_serialized (C N : nat) (identifier : string) (now : Q)
    (schedule : list nat) : Prop :=
  let w := exec (tb_reads identifier now) (tb_writes identifier now)
             schedule (start (TB.mk (Qnat C) 1 ∅ ∅) N) in
  length (returned w) = N -> admissions w = Nat.min N C.

Definition lb_serialized (C N : nat) (identifier : string) (now : Q)
    (schedule : list nat) : Prop :=
  let w := exec (lb_reads identifier now) (lb_writes identifier now)
             schedule (start (LB.mk (Qnat C) 1 ∅ ∅) N) in
  length (returned w) = N -> admissions w = Nat.min N C.

(** * Properties *)

(** ** Comparisons, [min] and [max] *)

Lemma py_lt_true a b : py_lt a b = true <-> a < b.
Proof.
  unfold py_lt. rewrite Qlt_alt.
  destruct (a ?= b); split; congruence.
Qed.

Lemma py_lt_false a b : py_lt a b = false <-> b <= a.
Proof.
  rewrite <- not_true_iff_false, py_lt_true. split.
  - apply Qnot_lt_le.
  - apply Qle_not_lt.
Qed.

Lemma py_min_cases a b :
  (b < a /\ py_min a b = b) \/ (a <= b /\ py_min a b = a).
Proof.
  unfold py_min. destruct (py_lt b a) eqn:E.
  - left. split; [by apply py_lt_true | done].
  - right. split; [by apply py_lt_false | done].
Qed.

Lemma py_max_cases a b :
  (a < b /\ py_max a b = b) \/ (b <= a /\ py_max a b = a).
Proof.
  unfold py_max, py_gt. destruct (py_lt a b) eqn:E.
  - left. split; [by apply py_lt_true | done].
  - right. split; [by apply py_lt_false | done].
Qed.

Lemma Qnat_S n : Qnat (S n) == Qnat n + 1.
Proof.
  unfold Qnat. rewrite Nat2Z.inj_succ, <- Z.add_1_r, inject_Z_plus.
  reflexivity.
Qed.

Lemma Qnat_nonneg n : 0 <= Qnat n.
Proof.
  unfold Qnat. change 0 with (inject_Z 0).
  rewrite <- Zle_Qle. lia.
Qed.

(** Case analysis on the built-ins met in a goal, then linear
    arithmetic over the rationals. *)
Ltac py_cases :=
  repeat match goal with
  | |- context [py_min ?a ?b] =>
      let H := fresh "Hmin" in let E := fresh "Emin" in
      destruct (py_min_cases a b) as [[H E] | [H E]]; rewrite E in *; clear E
  | |- context [py_max ?a ?b] =>
      let H := fresh "Hmax" in let E := fresh "Emax" in
      destruct (py_max_cases a b) as [[H E] | [H E]]; rewrite E in *; clear E
  | H0 : context [py_min ?a ?b] |- _ =>
      let H := fresh "Hmin" in let E := fresh "Emin" in
      destruct (py_min_cases a b) as [[H E] | [H E]]; rewrite E in *; clear E
  | H0 : context [py_max ?a ?b] |- _ =>
      let H := fresh "Hmax" in let E := fresh "Emax" in
      destruct (py_max_cases a b) as [[H E] | [H E]]; rewrite E in *; clear E
  end.

(** ** One call of the token bucket *)

Section TokenStep.
Variables (self : TB.t) (identifier : string) (now : Q).

Lemma tb_reject :
  TB.new_tokens self identifier now < 1 ->
  TB.allow_request self identifier now = (false, self).
Proof.
  intros H. unfold TB.allow_request.
  apply py_lt_true in H. by rewrite H.
Qed.

Lemma tb_admit :
  1 <= TB.new_tokens self identifier now ->
  TB.allow_request self identifier now =
    (true,
     TB.mk (TB.capacity self) (TB.refill_rate self)
       (<[identifier := TB.new_tokens self identifier now - 1]>
          (TB.tokens self))
       (<[identifier := now]> (TB.timestamps self))).
Proof.
  intros H. unfold TB.allow_request.
  apply py_lt_false in H. by rewrite H.
Qed.

Lemma tb_answer :
  fst (TB.allow_request self identifier now) = true <->
  1 <= TB.new_tokens self identifier now.
Proof.
  unfold TB.allow_request.
  destruct (py_lt _ 1) eqn:E; simpl.
  - apply py_lt_true in E. split; [done | intros; lra].
  - apply py_lt_false in E. done.
Qed.

Lemma tb_config :
  TB.capacity (snd (TB.allow_request self identifier now))
    = TB.capacity self /\
  TB.refill_rate (snd (TB.allow_request self identifier now))
    = TB.refill_rate self.
Proof. unfold TB.allow_request. by destruct (py_lt _ 1). Qed.
End TokenStep.

(** ** One call of the leaky bucket *)

Section LeakyStep.
Variables (self : LB.t) (identifier : string) (now : Q).

Lemma lb_reject :
  LB.capacity self < LB.level self identifier now + 1 ->
  LB.allow_request self identifier now = (false, self).
Proof.
  intros H. unfold LB.allow_request, py_gt.
  apply py_lt_true in H. by rewrite H.
Qed.

Lemma lb_admit :
  LB.level self identifier now + 1 <= LB.capacity self ->
  LB.allow_request self identifier now =
    (true,
     LB.mk (LB.capacity self) (LB.leak_rate self)
       (<[identifier := LB.level self identifier now + 1]>
          (LB.water_level self))
       (<[identifier := now]> (LB.last_checked self))).
Proof.
  intros H. unfold LB.allow_request, py_gt.
  apply py_lt_false in H. by rewrite H.
Qed.

Lemma lb_answer :
  fst (LB.allow_request self identifier now) = true <->
  LB.level self identifier now + 1 <= LB.capacity self.
Proof.
  unfold LB.allow_request, py_gt.
  destruct (py_lt _ _) eqn:E; simpl.
  - apply py_lt_true in E. split; [done | intros; lra].
  - apply py_lt_false in E. done.
Qed.

Lemma lb_level_nonneg : 0 <= LB.level self identifier now.
Proof. unfold LB.level. py_cases; lra. Qed.
End LeakyStep.

(** ** Sequences of calls *)

Lemma tb_run_cons self identifier now rest :
  TB.run self ((identifier, now) :: rest) =
    (fst (TB.allow_request self identifier now)
       :: fst (TB.run (snd (TB.allow_request self identifier now)) rest),
     snd (TB.run (snd (TB.allow_request self identifier now)) rest)).
Proof.
  simpl. destruct (TB.allow_request self identifier now) as [b self1].
  simpl. by destruct (TB.run self1 rest).
Qed.

Lemma lb_run_cons self identifier now rest :
  LB.run self ((identifier, now) :: rest) =
    (fst (LB.allow_request self identifier now)
       :: fst (LB.run (snd (LB.allow_request self identifier now)) rest),
     snd (LB.run (snd (LB.allow_request self identifier now)) rest)).
Proof.
  simpl. destruct (LB.allow_request self identifier now) as [b self1].
  simpl. by destruct (LB.run self1 rest).
Qed.

Lemma dict_get_insert d k v dflt : dict_get (<[k := v]> d) k dflt = v.
Proof. unfold dict_get. by rewrite lookup_insert_eq. Qed.

Lemma dict_get_fresh d k dflt : d !! k = None -> dict_get d k dflt = dflt.
Proof. unfold dict_get. by intros ->. Qed.

(** No time has passed since the stored reading: nothing is refilled and
    nothing leaks, whatever the rate. *)
Lemma no_elapsed (now last rate : Q) : last == now -> (now - last) * rate == 0.
Proof. intros ->. ring. Qed.

Lemma tb_run_app self l1 l2 :
  TB.run self (l1 ++ l2) =
    (fst (TB.run self l1) ++ fst (TB.run (snd (TB.run self l1)) l2),
     snd (TB.run (snd (TB.run self l1)) l2)).
Proof.
  revert self. induction l1 as [|[identifier now] l1 IH]; intros self.
  - simpl. by destruct (TB.run self l2).
  - rewrite <- app_comm_cons, !tb_run_cons, IH. done.
Qed.

Lemma lb_run_app self l1 l2 :
  LB.run self (l1 ++ l2) =
    (fst (LB.run self l1) ++ fst (LB.run (snd (LB.run self l1)) l2),
     snd (LB.run (snd (LB.run self l1)) l2)).
Proof.
  revert self. induction l1 as [|[identifier now] l1 IH]; intros self.
  - simpl. by destruct (LB.run self l2).
  - rewrite <- app_comm_cons, !lb_run_cons, IH. done.
Qed.

(** A bucket holding [n + m] tokens for the identifier, read at the time
    of its last update, admits [n] calls in a row and is left with [m]. *)
Lemma tb_burst_prefix identifier now m n : forall self,
  dict_get (TB.tokens self) identifier (TB.capacity self) == Qnat n + m ->
  0 <= m ->
  Qnat n + m <= TB.capacity self ->
  dict_get (TB.timestamps self) identifier now == now ->
  fst (TB.run self (replicate n (identifier, now))) = replicate n true /\
  tb_after self (snd (TB.run self (replicate n (identifier, now))))
    identifier now m n.
Proof.
  induction n as [|n IH]; intros self Htok Hm Hcap Hlast.
  - change (Qnat 0) with 0 in *. simpl. split; [done |].
    repeat split; try done; try lra. lia.
  - pose proof (no_elapsed _ _ (TB.refill_rate self) Hlast) as Hz.
    pose proof (Qnat_S n) as HS. pose proof (Qnat_nonneg n) as Hn.
    assert (Hnew : TB.new_tokens self identifier now == Qnat n + m + 1).
    { unfold TB.new_tokens. py_cases; lra. }
    rewrite replicate_S, tb_run_cons, tb_admit by lra. cbn [fst snd].
    set (self1 := TB.mk _ _ _ _).
    destruct (IH self1) as [Hres (Ha & Hb & Hc & Hd & He)];
      subst self1; cbn [TB.tokens TB.timestamps TB.capacity];
      rewrite ?dict_get_insert; try lra.
    split; [by rewrite Hres |].
    repeat split; try done.
    intros _. destruct n as [|n]; [apply lookup_insert_eq | apply Hc; lia].
Qed.

(** The next call at that same time is rejected once no token is left. *)
Lemma tb_empty_rejects self identifier now :
  dict_get (TB.tokens self) identifier (TB.capacity self) == 0 ->
  dict_get (TB.timestamps self) identifier now == now ->
  TB.allow_request self identifier now = (false, self).
Proof.
  intros Htok Hlast.
  pose proof (no_elapsed _ _ (TB.refill_rate self) Hlast) as Hz.
  apply tb_reject. unfold TB.new_tokens. py_cases; lra.
Qed.

(** A bucket whose level for the identifier is [n + m] below the
    capacity, read at the time of its last update, admits [n] calls in a
    row and is left [m] below the capacity. *)
Lemma lb_burst_prefix identifier now m n : forall self,
  dict_get (LB.water_level self) identifier 0
    == LB.capacity self - (Qnat n + m) ->
  0 <= m ->
  Qnat n + m <= LB.capacity self ->
  dict_get (LB.last_checked self) identifier now == now ->
  fst (LB.run self (replicate n (identifier, now))) = replicate n true /\
  lb_after self (snd (LB.run self (replicate n (identifier, now))))
    identifier now (LB.capacity self - m) n.
Proof.
  induction n as [|n IH]; intros self Hlev Hm Hcap Hlast.
  - change (Qnat 0) with 0 in *. simpl. split; [done |].
    repeat split; try done; try lra. lia.
  - pose proof (no_elapsed _ _ (LB.leak_rate self) Hlast) as Hz.
    pose proof (Qnat_S n) as HS. pose proof (Qnat_nonneg n) as Hn.
    assert (Hnew : LB.level self identifier now
                   == LB.capacity self - (Qnat n + m) - 1).
    { unfold LB.level. py_cases; lra. }
    rewrite replicate_S, lb_run_cons, lb_admit by lra. cbn [fst snd].
    set (self1 := LB.mk _ _ _ _).
    destruct (IH self1) as [Hres (Ha & Hb & Hc & Hd & He)];
      subst self1; cbn [LB.water_level LB.last_checked LB.capacity];
      rewrite ?dict_get_insert; try lra.
    split; [by rewrite Hres |].
    cbn [LB.capacity] in Ha.
    repeat split; try done.
    intros _. destruct n as [|n]; [apply lookup_insert_eq | apply Hc; lia].
Qed.

(** The next call at that same time is rejected once the level has
    reached the capacity. *)
Lemma lb_full_rejects self identifier now :
  dict_get (LB.water_level self) identifier 0 == LB.capacity self ->
  0 <= LB.capacity self ->
  dict_get (LB.last_checked self) identifier now == now ->
  LB.allow_request self identifier now = (false, self).
Proof.
  intros Hlev Hcap Hlast.
  pose proof (no_elapsed _ _ (LB.leak_rate self) Hlast) as Hz.
  apply lb_reject. unfold LB.level. py_cases; lra.
Qed.

(** ** Burst admission *)

(** C1.  Burst admission: for every capacity [C] that is a whole number
    (in particular every positive one) and every identifier with no
    entry in either dictionary, [C + 1] calls made at one and the same
    clock reading are answered [True] for the first [C] and [False] for
    the last, by the token bucket and by the leaky bucket. *)
Theorem burst_admission (C : nat) (identifier : string) (now : Q)
    (tb : TB.t) (lb : LB.t) :
  TB.capacity tb == Qnat C ->
  TB.tokens tb !! identifier = None ->
  TB.timestamps tb !! identifier = None ->
  LB.capacity lb == Qnat C ->
  LB.water_level lb !! identifier = None ->
  LB.last_checked lb !! identifier = None ->
  fst (TB.run tb (replicate (C + 1) (identifier, now)))
    = replicate C true ++ [false] /\
  fst (LB.run lb (replicate (C + 1) (identifier, now)))
    = replicate C true ++ [false].
Proof.
  intros Hcap Htok Hts Hcap' Hlev Hlast.
  pose proof (Qnat_nonneg C) as HC.
  rewrite replicate_add, tb_run_app, lb_run_app. cbn [fst replicate].
  split.
  - destruct (tb_burst_prefix identifier now 0 C tb)
      as [Hres (Ha & Hb & _ & Hd & _)];
      rewrite ?(dict_get_fresh _ _ _ Htok), ?(dict_get_fresh _ _ _ Hts);
      try lra.
    rewrite Hres, tb_run_cons, tb_empty_rejects; done.
  - destruct (lb_burst_prefix identifier now 0 C lb)
      as [Hres (Ha & Hb & _ & Hd & _)];
      rewrite ?(dict_get_fresh _ _ _ Hlev), ?(dict_get_fresh _ _ _ Hlast);
      try lra.
    rewrite Hres, lb_run_cons, lb_full_rejects; rewrite ?Hd; try done; lra.
Qed.

Lemma burst_admission_witness :
  fst (TB.run token_limiter (replicate (5 + 1) ("anonymous"%string, 10)))
    = replicate 5 true ++ [false] /\
  fst (LB.run leaky_limiter (replicate (5 + 1) ("anonymous"%string, 10)))
    = replicate 5 true ++ [false].
Proof.
  apply (burst_admission 5 "anonymous" 10 token_limiter leaky_limiter);
    reflexivity.
Defined.

(** ** Recovery after one time unit *)

Lemma dict_get_stored d k v dflt : d !! k = Some v -> dict_get d k dflt = v.
Proof. unfold dict_get. by intros ->. Qed.

(** One time unit at rate one refills, or leaks, one unit. *)
Lemma unit_elapsed (t last rate : Q) :
  last == t -> rate == 1 -> (t + 1 - last) * rate == 1.
Proof. intros -> ->. ring. Qed.

(** C6.  Token refill recovery: with capacity 5 and refill rate 1, an
    identifier with no entry is admitted five times at a clock reading
    [t]; a call at [t + 1] is then admitted and a second call at [t + 1]
    is rejected. *)
Theorem token_refill_recovery (identifier : string) (t : Q) (tb : TB.t) :
  TB.capacity tb == 5 ->
  TB.refill_rate tb == 1 ->
  TB.tokens tb !! identifier = None ->
  TB.timestamps tb !! identifier = None ->
  fst (TB.run tb (replicate 5 (identifier, t)
                    ++ [(identifier, t + 1); (identifier, t + 1)]))
    = replicate 5 true ++ [true; false].
Proof.
  intros Hcap Hrate Htok Hts.
  assert (H5 : Qnat 5 == 5) by reflexivity.
  rewrite tb_run_app. cbn [fst].
  destruct (tb_burst_prefix identifier t 0 5 tb)
    as [Hres (Ha & _ & Hc & Hd & He)];
    rewrite ?(dict_get_fresh _ _ _ Htok), ?(dict_get_fresh _ _ _ Hts);
    try lra.
  rewrite Hres. f_equal.
  set (tb1 := snd (TB.run tb _)) in *.
  specialize (Hc ltac:(lia)).
  assert (Hone : (t + 1 - dict_get (TB.timestamps tb1) identifier (t + 1))
                 * TB.refill_rate tb1 == 1).
  { apply unit_elapsed; [by rewrite (dict_get_stored _ _ _ _ Hc) | by rewrite He]. }
  assert (Hnew : TB.new_tokens tb1 identifier (t + 1) == 1).
  { assert (TB.capacity tb1 == 5) by (by rewrite Hd).
    unfold TB.new_tokens. py_cases; lra. }
  rewrite !tb_run_cons, tb_admit by lra. cbn [fst snd].
  rewrite tb_empty_rejects; [done | |];
    cbn [TB.tokens TB.timestamps TB.capacity];
    rewrite dict_get_insert; lra.
Qed.

Lemma token_refill_recovery_witness :
  fst (TB.run token_limiter (replicate 5 ("anonymous"%string, 100)
                    ++ [("anonymous"%string, 100 + 1);
                        ("anonymous"%string, 100 + 1)]))
    = replicate 5 true ++ [true; false].
Proof.
  apply (token_refill_recovery "anonymous" 100 token_limiter); reflexivity.
Defined.

(** C7.  Leaky drain recovery: with capacity 5 and leak rate 1, an
    identifier with no entry is admitted five times at a clock reading
    [t], which fills its bucket; a call at [t + 1] is then admitted and a
    second call at [t + 1] is rejected. *)
Theorem leaky_drain_recovery (identifier : string) (t : Q) (lb : LB.t) :
  LB.capacity lb == 5 ->
  LB.leak_rate lb == 1 ->
  LB.water_level lb !! identifier = None ->
  LB.last_checked lb !! identifier = None ->
  fst (LB.run lb (replicate 5 (identifier, t)
                    ++ [(identifier, t + 1); (identifier, t + 1)]))
    = replicate 5 true ++ [true; false].
Proof.
  intros Hcap Hrate Hlev Hlast.
  assert (H5 : Qnat 5 == 5) by reflexivity.
  rewrite lb_run_app. cbn [fst].
  destruct (lb_burst_prefix identifier t 0 5 lb)
    as [Hres (Ha & _ & Hc & Hd & He)];
    rewrite ?(dict_get_fresh _ _ _ Hlev), ?(dict_get_fresh _ _ _ Hlast);
    try lra.
  rewrite Hres. f_equal.
  set (lb1 := snd (LB.run lb _)) in *.
  specialize (Hc ltac:(lia)).
  assert (Hone : (t + 1 - dict_get (LB.last_checked lb1) identifier (t + 1))
                 * LB.leak_rate lb1 == 1).
  { apply unit_elapsed; [by rewrite (dict_get_stored _ _ _ _ Hc) | by rewrite He]. }
  assert (Hnew : LB.level lb1 identifier (t + 1) == 4).
  { unfold LB.level. py_cases; lra. }
  assert (Hcap1 : LB.capacity lb1 == 5) by (by rewrite Hd).
  rewrite !lb_run_cons, lb_admit by lra. cbn [fst snd].
  rewrite lb_full_rejects; [done | | |];
    cbn [LB.water_level LB.last_checked LB.capacity];
    rewrite ?dict_get_insert; lra.
Qed.

Lemma leaky_drain_recovery_witness :
  fst (LB.run leaky_limiter (replicate 5 ("anonymous"%string, 100)
                    ++ [("anonymous"%string, 100 + 1);
                        ("anonymous"%string, 100 + 1)]))
    = replicate 5 true ++ [true; false].
Proof.
  apply (leaky_drain_recovery "anonymous" 100 leaky_limiter); reflexivity.
Defined.

(** ** Rejected calls *)

(** C5.  Token-bucket rejection frame: when fewer than one token is
    available the call answers [False] and returns the very object it
    received; both dictionaries are as before, so the token count and
    the time stamp of the identifier are untouched and the time stamp is
    not moved to [now]. *)
Theorem token_rejection_frame (self : TB.t) (identifier : string) (now : Q) :
  TB.new_tokens self identifier now < 1 ->
  TB.allow_request self identifier now = (false, self) /\
  TB.tokens (snd (TB.allow_request self identifier now)) = TB.tokens self /\
  TB.timestamps (snd (TB.allow_request self identifier now))
    = TB.timestamps self.
Proof. intros H. by rewrite tb_reject. Qed.

Lemma token_rejection_frame_witness :
  let self := snd (TB.run token_limiter (replicate 5 ("u"%string, 10))) in
  TB.timestamps self !! "u"%string = Some 10 /\
  TB.allow_request self "u" 10.5 = (false, self) /\
  TB.timestamps (snd (TB.allow_request self "u" 10.5)) !! "u"%string
    = Some 10.
Proof.
  intros self.
  destruct (token_rejection_frame self "u" 10.5) as (H1 & _ & H3).
  - vm_compute. reflexivity.
  - split; [reflexivity |]. split; [exact H1 |]. rewrite H3. reflexivity.
Defined.

(** C3, as the code has it.  Leaky-bucket rejection frame: when the
    drained level plus one exceeds the capacity the call answers [False]
    and returns the very object it received; neither the drained level
    nor [now] is stored. *)
Theorem leaky_rejection_frame (self : LB.t) (identifier : string) (now : Q) :
  LB.capacity self < LB.level self identifier now + 1 ->
  LB.allow_request self identifier now = (false, self) /\
  LB.water_level (snd (LB.allow_request self identifier now))
    = LB.water_level self /\
  LB.last_checked (snd (LB.allow_request self identifier now))
    = LB.last_checked self.
Proof. intros H. by rewrite lb_reject. Qed.

Lemma leaky_rejection_frame_witness :
  let self := snd (LB.run leaky_limiter (replicate 5 ("u"%string, 10))) in
  LB.last_checked self !! "u"%string = Some 10 /\
  LB.allow_request self "u" 10.5 = (false, self) /\
  LB.last_checked (snd (LB.allow_request self "u" 10.5)) !! "u"%string
    = Some 10.
Proof.
  intros self.
  destruct (leaky_rejection_frame self "u" 10.5) as (H1 & _ & H3).
  - vm_compute. reflexivity.
  - split; [reflexivity |]. split; [exact H1 |]. rewrite H3. reflexivity.
Defined.

(** C3, as stated, fails.  After five admitted calls at time 10 the
    level of ["u"] is 5; a call at time 10.5 drains it to 4.5 and is
    rejected, yet the stored level is still 5 and the stored time still
    10. *)
Lemma leaky_rejection_not_persisted :
  ~ lb_persists_on_rejection
      (snd (LB.run leaky_limiter (replicate 5 ("u"%string, 10)))) "u" 10.5.
Proof.
  intros H. destruct H as [_ (t & Ht & Heq)].
  - vm_compute. reflexivity.
  - vm_compute in Ht. injection Ht as <-. vm_compute in Heq. discriminate.
Qed.

(** ** Bounds on the stored numbers *)

Lemma tb_run_capacity calls : forall self,
  TB.capacity (snd (TB.run self calls)) = TB.capacity self.
Proof.
  induction calls as [|[identifier now] calls IH]; intros self; [done |].
  rewrite tb_run_cons. cbn [snd]. rewrite IH. apply tb_config.
Qed.

Lemma lb_config self identifier now :
  LB.capacity (snd (LB.allow_request self identifier now))
    = LB.capacity self /\
  LB.leak_rate (snd (LB.allow_request self identifier now))
    = LB.leak_rate self.
Proof. unfold LB.allow_request. by destruct (py_gt _ _). Qed.

Lemma lb_run_capacity calls : forall self,
  LB.capacity (snd (LB.run self calls)) = LB.capacity self.
Proof.
  induction calls as [|[identifier now] calls IH]; intros self; [done |].
  rewrite lb_run_cons. cbn [snd]. rewrite IH. apply lb_config.
Qed.

(** The number of tokens seen by a call never exceeds the capacity,
    whatever the clock reading. *)
Lemma tb_new_tokens_le_capacity self identifier now :
  TB.new_tokens self identifier now <= TB.capacity self.
Proof. unfold TB.new_tokens. py_cases; lra. Qed.

Lemma tb_allow_bounded self identifier now :
  tb_bounded self -> tb_bounded (snd (TB.allow_request self identifier now)).
Proof.
  intros Hb. unfold TB.allow_request.
  destruct (py_lt _ 1) eqn:E; [done |].
  apply py_lt_false in E.
  pose proof (tb_new_tokens_le_capacity self identifier now).
  unfold tb_bounded. cbn [snd TB.tokens TB.capacity].
  apply map_Forall_insert_2; [lra | done].
Qed.

Lemma lb_allow_bounded self identifier now :
  lb_bounded self -> lb_bounded (snd (LB.allow_request self identifier now)).
Proof.
  intros Hb. unfold LB.allow_request, py_gt.
  destruct (py_lt _ _) eqn:E; [done |].
  apply py_lt_false in E.
  pose proof (lb_level_nonneg self identifier now).
  unfold lb_bounded. cbn [snd LB.water_level LB.capacity].
  apply map_Forall_insert_2; [lra | done].
Qed.

Lemma tb_run_bounded calls : forall self,
  tb_bounded self -> tb_bounded (snd (TB.run self calls)).
Proof.
  induction calls as [|[identifier now] calls IH]; intros self Hb; [done |].
  rewrite tb_run_cons. cbn [snd]. by apply IH, tb_allow_bounded.
Qed.

Lemma lb_run_bounded calls : forall self,
  lb_bounded self -> lb_bounded (snd (LB.run self calls)).
Proof.
  induction calls as [|[identifier now] calls IH]; intros self Hb; [done |].
  rewrite lb_run_cons. cbn [snd]. by apply IH, lb_allow_bounded.
Qed.

(** C2.  Bounds invariant: after any sequence of calls to a newly
    constructed object, for any identifiers and any clock readings
    (increasing, equal or decreasing), every token count stored by the
    token bucket and every water level stored by the leaky bucket lies
    between zero and the capacity.  The capacity and the rate are
    arbitrary. *)
Theorem bounds_invariant (capacity rate : Q) (calls : list (string * Q)) :
  map_Forall (fun _ v => 0 <= v <= capacity)
    (TB.tokens (snd (TB.run (TB.mk capacity rate ∅ ∅) calls))) /\
  map_Forall (fun _ v => 0 <= v <= capacity)
    (LB.water_level (snd (LB.run (LB.mk capacity rate ∅ ∅) calls))).
Proof.
  split.
  - pose proof (tb_run_bounded calls (TB.mk capacity rate ∅ ∅)) as H.
    unfold tb_bounded in H. rewrite tb_run_capacity in H.
    apply H, map_Forall_empty.
  - pose proof (lb_run_bounded calls (LB.mk capacity rate ∅ ∅)) as H.
    unfold lb_bounded in H. rewrite lb_run_capacity in H.
    apply H, map_Forall_empty.
Qed.

Lemma bounds_invariant_witness :
  let calls := [("a", 10); ("b", 11); ("a", 3); ("a", 20.5)]%string in
  TB.tokens (snd (TB.run token_limiter calls)) !! "a"%string = Some 4 /\
  0 <= 4 <= 5 /\
  LB.water_level (snd (LB.run leaky_limiter calls)) !! "a"%string = Some 1 /\
  0 <= 1 <= 5.
Proof.
  intros calls.
  destruct (bounds_invariant 5 1 calls) as [Ht Hl].
  assert (E1 : TB.tokens (snd (TB.run token_limiter calls)) !! "a"%string
               = Some 4) by (vm_compute; reflexivity).
  assert (E2 : LB.water_level (snd (LB.run leaky_limiter calls)) !! "a"%string
               = Some 1) by (vm_compute; reflexivity).
  split; [exact E1 |]. split; [exact (Ht _ _ E1) |].
  split; [exact E2 |]. exact (Hl _ _ E2).
Defined.

(** ** Capacity below one *)

(** C10.  Sub-unit capacity rejects everything: with a capacity below
    one (in particular strictly between 0 and 1), whatever the rate and
    whatever is stored, every call of any sequence of calls is answered
    [False] by the token bucket and by the leaky bucket, and the object
    is left as it was. *)
Theorem sub_unit_capacity_rejects (tb : TB.t) (lb : LB.t)
    (calls : list (string * Q)) :
  TB.capacity tb < 1 ->
  LB.capacity lb < 1 ->
  TB.run tb calls = (replicate (length calls) false, tb) /\
  LB.run lb calls = (replicate (length calls) false, lb).
Proof.
  intros Ht Hl. split.
  - induction calls as [|[identifier now] calls IH]; [done |].
    pose proof (tb_new_tokens_le_capacity tb identifier now).
    rewrite tb_run_cons, tb_reject by lra. cbn [fst snd]. by rewrite IH.
  - induction calls as [|[identifier now] calls IH]; [done |].
    pose proof (lb_level_nonneg lb identifier now).
    rewrite lb_run_cons, lb_reject by lra. cbn [fst snd]. by rewrite IH.
Qed.

Lemma sub_unit_capacity_rejects_witness :
  let calls := [("a", 10); ("b", 11); ("a", 3); ("a", 2000)]%string in
  0 < 0.5 < 1 /\
  TB.run (TB.mk 0.5 2 ∅ ∅) calls = ([false; false; false; false],
                                    TB.mk 0.5 2 ∅ ∅) /\
  LB.run (LB.mk 0.5 2 ∅ ∅) calls = ([false; false; false; false],
                                    LB.mk 0.5 2 ∅ ∅).
Proof.
  intros calls. split; [split; reflexivity |].
  apply (sub_unit_capacity_rejects (TB.mk 0.5 2 ∅ ∅) (LB.mk 0.5 2 ∅ ∅) calls);
    reflexivity.
Defined.

(** ** A clock reading before the stored time stamp *)

(** With a rate that is not negative, a negative elapsed time refills,
    or leaks, a negative or null amount. *)
Lemma backwards_elapsed (now last rate : Q) :
  0 <= rate -> now < last -> (now - last) * rate <= 0.
Proof.
  intros Hr Hlt.
  assert (H : 0 <= (last - now) * rate) by (apply Qmult_le_0_compat; lra).
  assert (E : (now - last) * rate == - ((last - now) * rate)) by ring.
  lra.
Qed.

(** C4, as the code has it.  The elapsed time is not clamped: for a
    reading [now] before the stored time stamp [last] the token bucket
    sees [min(capacity, tokens + (now - last) * refill_rate)] tokens and
    the leaky bucket sees the level
    [max(0, level - (now - last) * leak_rate)].  With a rate that is not
    negative the token bucket then sees no more tokens, and the leaky
    bucket no lower a level, than a call at [last] itself would; so such
    a call is admitted only where a call with no elapsed time is
    admitted. *)
Theorem clock_anomaly_unclamped (tb : TB.t) (lb : LB.t)
    (identifier : string) (now last last' : Q) :
  0 <= TB.refill_rate tb ->
  TB.timestamps tb !! identifier = Some last ->
  now < last ->
  0 <= LB.leak_rate lb ->
  LB.last_checked lb !! identifier = Some last' ->
  now < last' ->
  (TB.new_tokens tb identifier now
     = py_min (TB.capacity tb)
         (dict_get (TB.tokens tb) identifier (TB.capacity tb)
          + (now - last) * TB.refill_rate tb) /\
   TB.new_tokens tb identifier now <= TB.new_tokens tb identifier last /\
   (fst (TB.allow_request tb identifier now) = true ->
    fst (TB.allow_request tb identifier last) = true)) /\
  (LB.level lb identifier now
     = py_max 0 (dict_get (LB.water_level lb) identifier 0
                 - (now - last') * LB.leak_rate lb) /\
   LB.level lb identifier last' <= LB.level lb identifier now /\
   (fst (LB.allow_request lb identifier now) = true ->
    fst (LB.allow_request lb identifier last') = true)).
Proof.
  intros Hr Hts Hlt Hr' Hlc Hlt'.
  pose proof (backwards_elapsed _ _ _ Hr Hlt) as Hneg.
  pose proof (backwards_elapsed _ _ _ Hr' Hlt') as Hneg'.
  pose proof (no_elapsed last last (TB.refill_rate tb) ltac:(reflexivity))
    as Hz.
  pose proof (no_elapsed last' last' (LB.leak_rate lb) ltac:(reflexivity))
    as Hz'.
  split.
  - assert (Hle : TB.new_tokens tb identifier now
                  <= TB.new_tokens tb identifier last).
    { unfold TB.new_tokens. rewrite !(dict_get_stored _ _ _ _ Hts).
      py_cases; lra. }
    split; [| split; [exact Hle |]].
    + unfold TB.new_tokens. by rewrite (dict_get_stored _ _ _ _ Hts).
    + rewrite !tb_answer. lra.
  - assert (Hle : LB.level lb identifier last' <= LB.level lb identifier now).
    { unfold LB.level. rewrite !(dict_get_stored _ _ _ _ Hlc).
      py_cases; lra. }
    split; [| split; [exact Hle |]].
    + unfold LB.level. by rewrite (dict_get_stored _ _ _ _ Hlc).
    + rewrite !lb_answer. lra.
Qed.

Lemma clock_anomaly_unclamped_witness :
  let tb := snd (TB.run token_limiter (replicate 4 ("u"%string, 10))) in
  let lb := snd (LB.run leaky_limiter (replicate 4 ("u"%string, 10))) in
  9 < 10 /\
  TB.new_tokens tb "u" 9 <= TB.new_tokens tb "u" 10 /\
  LB.level lb "u" 10 <= LB.level lb "u" 9.
Proof.
  intros tb lb.
  destruct (clock_anomaly_unclamped tb lb "u" 9 10 10)
    as [(_ & H1 & _) (_ & H2 & _)];
    try reflexivity; try (vm_compute; discriminate).
  split; [reflexivity |]. split; [exact H1 | exact H2].
Defined.

(** C4, as stated, fails.  After four admitted calls at time 10 the
    token bucket holds 1 token for ["u"] and the leaky bucket the level
    4, so a call at time 10 would be admitted by both.  A call at time 9
    sees 0 tokens, respectively the level 5, and is rejected. *)
Lemma clock_guard_absent :
  ~ tb_clock_guard
      (snd (TB.run token_limiter (replicate 4 ("u"%string, 10)))) "u" 9 /\
  ~ lb_clock_guard
      (snd (LB.run leaky_limiter (replicate 4 ("u"%string, 10)))) "u" 9.
Proof.
  split; intros H.
  - destruct (H 10 1) as [_ Hadm]; try reflexivity.
    specialize (Hadm ltac:(reflexivity)). vm_compute in Hadm. discriminate.
  - destruct (H 10 4) as [_ Hadm]; try reflexivity.
    specialize (Hadm ltac:(reflexivity)). vm_compute in Hadm. discriminate.
Qed.

(** ** Construction *)

(** On an object whose configuration and stored values are numbers, no
    operation of [allow_request] raises, and the call does what the
    method on numbers does. *)
Lemma py_tb_allow_request (m : TB.t) identifier now :
  PyTokenBucket.allow_request (PyTokenBucket.of_numbers m) identifier now
    = Returned (fst (TB.allow_request m identifier now),
                PyTokenBucket.of_numbers (snd (TB.allow_request m identifier now))).
Proof.
  unfold PyTokenBucket.allow_request, PyTokenBucket.of_numbers,
    TB.allow_request, TB.new_tokens, dict_get, py_min.
  cbn [PyTokenBucket.capacity PyTokenBucket.refill_rate PyTokenBucket.tokens
       PyTokenBucket.timestamps].
  rewrite !lookup_fmap.
  destruct (TB.tokens m !! identifier) as [tok|],
           (TB.timestamps m !! identifier) as [ts|];
    cbn [fmap option_fmap option_map from_option id val_sub val_mul val_add
         val_min val_lt outcome_bind];
    destruct (py_lt _ (TB.capacity m));
    cbn [val_lt outcome_bind]; destruct (py_lt _ 1);
    cbn [val_sub outcome_bind fst snd TB.capacity TB.refill_rate TB.tokens
         TB.timestamps];
    by rewrite ?fmap_insert.
Qed.

Lemma py_lb_allow_request (m : LB.t) identifier now :
  PyLeakyBucket.allow_request (PyLeakyBucket.of_numbers m) identifier now
    = Returned (fst (LB.allow_request m identifier now),
                PyLeakyBucket.of_numbers (snd (LB.allow_request m identifier now))).
Proof.
  unfold PyLeakyBucket.allow_request, PyLeakyBucket.of_numbers,
    LB.allow_request, LB.level, dict_get, py_max, py_gt.
  cbn [PyLeakyBucket.capacity PyLeakyBucket.leak_rate
       PyLeakyBucket.water_level PyLeakyBucket.last_checked].
  rewrite !lookup_fmap.
  destruct (LB.water_level m !! identifier) as [lev|],
           (LB.last_checked m !! identifier) as [ts|];
    cbn [fmap option_fmap option_map from_option id val_sub val_mul val_add
         val_max val_gt val_lt outcome_bind];
    destruct (py_lt 0 _);
    cbn [val_add val_gt val_lt outcome_bind]; destruct (py_lt (LB.capacity m) _);
    cbn [fst snd LB.capacity LB.leak_rate LB.water_level LB.last_checked];
    by rewrite ?fmap_insert.
Qed.

Lemma py_tb_run calls : forall m : TB.t,
  PyTokenBucket.run (PyTokenBucket.of_numbers m) calls
    = Returned (fst (TB.run m calls),
                PyTokenBucket.of_numbers (snd (TB.run m calls))).
Proof.
  induction calls as [|[identifier now] calls IH]; intros m; [done |].
  cbn [PyTokenBucket.run].
  rewrite py_tb_allow_request, tb_run_cons. cbn [outcome_bind fst snd].
  by rewrite IH.
Qed.

Lemma py_lb_run calls : forall m : LB.t,
  PyLeakyBucket.run (PyLeakyBucket.of_numbers m) calls
    = Returned (fst (LB.run m calls),
                PyLeakyBucket.of_numbers (snd (LB.run m calls))).
Proof.
  induction calls as [|[identifier now] calls IH]; intros m; [done |].
  cbn [PyLeakyBucket.run].
  rewrite py_lb_allow_request, lb_run_cons. cbn [outcome_bind fst snd].
  by rewrite IH.
Qed.

(** The operations do raise on a value that is not a number: an object
    constructed with [None] as its capacity fails at its first call. *)
Lemma py_allow_request_can_raise :
  (tb <- PyTokenBucket.init PyNone (PyNum 1) ;;
   PyTokenBucket.allow_request tb "u" 0) = Raised TypeError /\
  (lb <- PyLeakyBucket.init PyNone (PyNum 1) ;;
   PyLeakyBucket.allow_request lb "u" 0) = Raised TypeError.
Proof. split; reflexivity. Qed.

(** C8, as the code has it.  The configuration is not validated: for
    every capacity and every rate that are numbers, positive or not,
    both constructors return an object that holds the two numbers as
    given and two empty dictionaries, and no call of [allow_request] on
    it fails: constructing the object and making any sequence of calls
    raises nothing, each call returns the answer of the method, and the
    object stays one whose values are numbers. *)
Theorem construction_never_fails (capacity rate : Q)
    (calls : list (string * Q)) :
  PyTokenBucket.init (PyNum capacity) (PyNum rate)
    = Returned (PyTokenBucket.mk (PyNum capacity) (PyNum rate) ∅ ∅) /\
  PyLeakyBucket.init (PyNum capacity) (PyNum rate)
    = Returned (PyLeakyBucket.mk (PyNum capacity) (PyNum rate) ∅ ∅) /\
  (tb <- PyTokenBucket.init (PyNum capacity) (PyNum rate) ;;
   PyTokenBucket.run tb calls)
    = Returned
        (fst (TB.run (TB.mk capacity rate ∅ ∅) calls),
         PyTokenBucket.of_numbers
           (snd (TB.run (TB.mk capacity rate ∅ ∅) calls))) /\
  (lb <- PyLeakyBucket.init (PyNum capacity) (PyNum rate) ;;
   PyLeakyBucket.run lb calls)
    = Returned
        (fst (LB.run (LB.mk capacity rate ∅ ∅) calls),
         PyLeakyBucket.of_numbers
           (snd (LB.run (LB.mk capacity rate ∅ ∅) calls))).
Proof.
  split; [done |]. split; [done |]. split.
  - rewrite <- py_tb_run.
    unfold PyTokenBucket.init, PyTokenBucket.of_numbers.
    cbn [outcome_bind TB.capacity TB.refill_rate TB.tokens TB.timestamps].
    by rewrite !fmap_empty.
  - rewrite <- py_lb_run.
    unfold PyLeakyBucket.init, PyLeakyBucket.of_numbers.
    cbn [outcome_bind LB.capacity LB.leak_rate LB.water_level
         LB.last_checked].
    by rewrite !fmap_empty.
Qed.

(** C8, as stated, fails.  A capacity and a rate of zero are accepted by
    both constructors. *)
Lemma invalid_configuration_accepted : ~ init_validates 0 0.
Proof.
  intros H. destruct H as [H _]; [left; apply Qle_refl | discriminate H].
Qed.

(** * Further properties of the two classes *)

(** ** Identifiers do not interfere *)

Lemma tb_agree_refl identifier self : tb_agree_on identifier self self.
Proof. by repeat split. Qed.

Lemma lb_agree_refl identifier self : lb_agree_on identifier self self.
Proof. by repeat split. Qed.

(** A call of the same identifier on two objects that agree on it. *)
Lemma tb_step_agree identifier now s1 s2 :
  tb_agree_on identifier s1 s2 ->
  fst (TB.allow_request s1 identifier now)
    = fst (TB.allow_request s2 identifier now) /\
  tb_agree_on identifier (snd (TB.allow_request s1 identifier now))
    (snd (TB.allow_request s2 identifier now)).
Proof.
  intros (Hc & Hr & Htok & Hts).
  assert (Hnew : TB.new_tokens s1 identifier now
                 = TB.new_tokens s2 identifier now).
  { unfold TB.new_tokens, dict_get. by rewrite Hc, Hr, Htok, Hts. }
  unfold TB.allow_request. rewrite Hnew.
  destruct (py_lt _ 1); cbn [fst snd]; [by repeat split |].
  repeat split; cbn [TB.capacity TB.refill_rate TB.tokens TB.timestamps];
    try done; by rewrite !lookup_insert_eq.
Qed.

Lemma lb_step_agree identifier now s1 s2 :
  lb_agree_on identifier s1 s2 ->
  fst (LB.allow_request s1 identifier now)
    = fst (LB.allow_request s2 identifier now) /\
  lb_agree_on identifier (snd (LB.allow_request s1 identifier now))
    (snd (LB.allow_request s2 identifier now)).
Proof.
  intros (Hc & Hr & Hlev & Hlast).
  assert (Hnew : LB.level s1 identifier now = LB.level s2 identifier now).
  { unfold LB.level, dict_get. by rewrite Hr, Hlev, Hlast. }
  unfold LB.allow_request. rewrite Hnew, Hc.
  destruct (py_gt _ _); cbn [fst snd]; [by repeat split |].
  repeat split; cbn [LB.capacity LB.leak_rate LB.water_level LB.last_checked];
    try done; by rewrite !lookup_insert_eq.
Qed.

(** A call of another identifier leaves the entries of this one as they
    are. *)
Lemma tb_step_other identifier i now self :
  i <> identifier ->
  tb_agree_on identifier (snd (TB.allow_request self i now)) self.
Proof.
  intros Hne. unfold TB.allow_request.
  destruct (py_lt _ 1); cbn [snd]; [apply tb_agree_refl |].
  repeat split; cbn [TB.tokens TB.timestamps]; by rewrite lookup_insert_ne.
Qed.

Lemma lb_step_other identifier i now self :
  i <> identifier ->
  lb_agree_on identifier (snd (LB.allow_request self i now)) self.
Proof.
  intros Hne. unfold LB.allow_request.
  destruct (py_gt _ _); cbn [snd]; [apply lb_agree_refl |].
  repeat split; cbn [LB.water_level LB.last_checked];
    by rewrite lookup_insert_ne.
Qed.

Lemma tb_agree_trans identifier s1 s2 s3 :
  tb_agree_on identifier s1 s2 -> tb_agree_on identifier s2 s3 ->
  tb_agree_on identifier s1 s3.
Proof.
  intros (? & ? & ? & ?) (? & ? & ? & ?). repeat split; congruence.
Qed.

Lemma lb_agree_trans identifier s1 s2 s3 :
  lb_agree_on identifier s1 s2 -> lb_agree_on identifier s2 s3 ->
  lb_agree_on identifier s1 s3.
Proof.
  intros (? & ? & ? & ?) (? & ? & ? & ?). repeat split; congruence.
Qed.

Lemma answers_for_cons identifier i now calls b answers :
  answers_for identifier ((i, now) :: calls) (b :: answers) =
    if decide (i = identifier)
    then b :: answers_for identifier calls answers
    else answers_for identifier calls answers.
Proof. done. Qed.

Lemma calls_of_cons identifier i now calls :
  calls_of identifier ((i, now) :: calls) =
    if decide (i = identifier)
    then (i, now) :: calls_of identifier calls
    else calls_of identifier calls.
Proof. unfold calls_of. by rewrite filter_cons. Qed.

Lemma tb_run_projection identifier calls : forall s1 s2,
  tb_agree_on identifier s1 s2 ->
  answers_for identifier calls (fst (TB.run s1 calls))
    = fst (TB.run s2 (calls_of identifier calls)) /\
  tb_agree_on identifier (snd (TB.run s1 calls))
    (snd (TB.run s2 (calls_of identifier calls))).
Proof.
  induction calls as [|[i now] calls IH]; intros s1 s2 Hag; [done |].
  rewrite tb_run_cons, calls_of_cons. cbn [fst snd].
  rewrite answers_for_cons.
  destruct (decide (i = identifier)) as [-> | Hne].
  - destruct (tb_step_agree identifier now _ _ Hag) as [Hans Hag'].
    destruct (IH _ _ Hag') as [Hrest Hfin].
    rewrite tb_run_cons. cbn [fst snd]. by rewrite Hans, Hrest.
  - apply IH. eapply tb_agree_trans; [by apply tb_step_other | done].
Qed.

Lemma lb_run_projection identifier calls : forall s1 s2,
  lb_agree_on identifier s1 s2 ->
  answers_for identifier calls (fst (LB.run s1 calls))
    = fst (LB.run s2 (calls_of identifier calls)) /\
  lb_agree_on identifier (snd (LB.run s1 calls))
    (snd (LB.run s2 (calls_of identifier calls))).
Proof.
  induction calls as [|[i now] calls IH]; intros s1 s2 Hag; [done |].
  rewrite lb_run_cons, calls_of_cons. cbn [fst snd].
  rewrite answers_for_cons.
  destruct (decide (i = identifier)) as [-> | Hne].
  - destruct (lb_step_agree identifier now _ _ Hag) as [Hans Hag'].
    destruct (IH _ _ Hag') as [Hrest Hfin].
    rewrite lb_run_cons. cbn [fst snd]. by rewrite Hans, Hrest.
  - apply IH. eapply lb_agree_trans; [by apply lb_step_other | done].
Qed.

(** X2.  Identifiers do not interfere: in any sequence of calls on any
    object of either class, the answers given to one identifier, and the
    entries stored for it at the end, are those of the same object
    receiving the calls of that identifier alone. *)
Theorem identifiers_independent (identifier : string)
    (calls : list (string * Q)) (tb : TB.t) (lb : LB.t) :
  (answers_for identifier calls (fst (TB.run tb calls))
     = fst (TB.run tb (calls_of identifier calls)) /\
   tb_agree_on identifier (snd (TB.run tb calls))
     (snd (TB.run tb (calls_of identifier calls)))) /\
  (answers_for identifier calls (fst (LB.run lb calls))
     = fst (LB.run lb (calls_of identifier calls)) /\
   lb_agree_on identifier (snd (LB.run lb calls))
     (snd (LB.run lb (calls_of identifier calls)))).
Proof.
  split.
  - apply tb_run_projection, tb_agree_refl.
  - apply lb_run_projection, lb_agree_refl.
Qed.

(** ** Counting admitted calls *)

Lemma Qnat_add n m : Qnat (n + m) == Qnat n + Qnat m.
Proof. unfold Qnat. by rewrite Nat2Z.inj_add, inject_Z_plus. Qed.

Lemma admitted_cons identifier i now calls b answers :
  admitted identifier ((i, now) :: calls) (b :: answers) =
    ((if decide (i = identifier) then if b then 1 else 0 else 0)
     + admitted identifier calls answers)%nat.
Proof.
  unfold admitted. rewrite answers_for_cons.
  destruct (decide (i = identifier)); [| done].
  rewrite filter_cons. by destruct b.
Qed.

(** What a non-negative rate refills grows with the time. *)
Lemma refill_monotone (r t0 a b : Q) :
  0 <= r -> a <= b -> r * (a - t0) <= r * (b - t0).
Proof.
  intros Hr Hab.
  assert (H : 0 <= r * (b - a)) by (apply Qmult_le_0_compat; lra).
  assert (E : r * (b - t0) == r * (a - t0) + r * (b - a)) by ring.
  lra.
Qed.


(** ** Calls at one clock reading *)

Lemma tb_rejects_repeat self identifier now k :
  TB.allow_request self identifier now = (false, self) ->
  TB.run self (replicate k (identifier, now)) = (replicate k false, self).
Proof.
  intros Hrej. induction k as [|k IH]; [done |].
  rewrite replicate_S, tb_run_cons, Hrej. cbn [fst snd]. by rewrite IH.
Qed.

Lemma lb_rejects_repeat self identifier now k :
  LB.allow_request self identifier now = (false, self) ->
  LB.run self (replicate k (identifier, now)) = (replicate k false, self).
Proof.
  intros Hrej. induction k as [|k IH]; [done |].
  rewrite replicate_S, lb_run_cons, Hrej. cbn [fst snd]. by rewrite IH.
Qed.

(** X5.  Calls made one after the other at one clock reading: with a
    whole-number capacity [C], of [N] calls of an identifier that has no
    entry the first [min N C] are admitted and all the others are
    rejected, in both classes. *)
Theorem sequential_admissions (C N : nat) (identifier : string) (now : Q)
    (tb : TB.t) (lb : LB.t) :
  TB.capacity tb == Qnat C ->
  TB.tokens tb !! identifier = None ->
  TB.timestamps tb !! identifier = None ->
  LB.capacity lb == Qnat C ->
  LB.water_level lb !! identifier = None ->
  LB.last_checked lb !! identifier = None ->
  fst (TB.run tb (replicate N (identifier, now)))
    = replicate (Nat.min N C) true ++ replicate (N - C) false /\
  fst (LB.run lb (replicate N (identifier, now)))
    = replicate (Nat.min N C) true ++ replicate (N - C) false.
Proof.
  intros Hcap Htok Hts Hcap' Hlev Hlast.
  pose proof (Qnat_nonneg C) as HC.
  destruct (Nat.le_gt_cases N C) as [Hle | Hgt].
  - assert (HN : Qnat N + Qnat (C - N) == Qnat C).
    { rewrite <- Qnat_add. by replace (N + (C - N))%nat with C by lia. }
    pose proof (Qnat_nonneg (C - N)) as Hm.
    rewrite Nat.min_l by done.
    replace (N - C)%nat with 0%nat by lia. cbn [replicate].
    rewrite !app_nil_r. split.
    + apply (tb_burst_prefix identifier now (Qnat (C - N)) N tb);
        rewrite ?(dict_get_fresh _ _ _ Htok), ?(dict_get_fresh _ _ _ Hts);
        lra.
    + apply (lb_burst_prefix identifier now (Qnat (C - N)) N lb);
        rewrite ?(dict_get_fresh _ _ _ Hlev), ?(dict_get_fresh _ _ _ Hlast);
        lra.
  - rewrite Nat.min_r by lia.
    replace N with (C + (N - C))%nat at 1 3 by lia.
    rewrite replicate_add, tb_run_app, lb_run_app. cbn [fst].
    split.
    + destruct (tb_burst_prefix identifier now 0 C tb)
        as [Hres (Ha & Hb & _)];
        rewrite ?(dict_get_fresh _ _ _ Htok), ?(dict_get_fresh _ _ _ Hts);
        try lra.
      rewrite Hres, tb_rejects_repeat; [done |].
      by apply tb_empty_rejects.
    + destruct (lb_burst_prefix identifier now 0 C lb)
        as [Hres (Ha & Hb & _ & Hd & _)];
        rewrite ?(dict_get_fresh _ _ _ Hlev), ?(dict_get_fresh _ _ _ Hlast);
        try lra.
      rewrite Hres, lb_rejects_repeat; [done |].
      apply lb_full_rejects; rewrite ?Hd; try done; lra.
Qed.

Lemma sequential_admissions_witness :
  fst (TB.run token_limiter (replicate 8 ("anonymous"%string, 3)))
    = replicate 5 true ++ replicate 3 false /\
  fst (LB.run leaky_limiter (replicate 8 ("anonymous"%string, 3)))
    = replicate 5 true ++ replicate 3 false.
Proof.
  apply (sequential_admissions 5 8 "anonymous" 3 token_limiter leaky_limiter);
    reflexivity.
Defined.

(** ** Waiting *)




(** A later clock reading sees no fewer tokens and no higher a level. *)
Lemma elapsed_monotone (d : gmap string Q) identifier (now now' rate : Q) :
  0 <= rate -> now <= now' ->
  (now - dict_get d identifier now) * rate
    <= (now' - dict_get d identifier now') * rate.
Proof.
  intros Hr Hle. unfold dict_get.
  destruct (d !! identifier) as [last|]; cbn [from_option id].
  - pose proof (refill_monotone rate last now now' Hr Hle).
    assert (E1 : (now - last) * rate == rate * (now - last)) by ring.
    assert (E2 : (now' - last) * rate == rate * (now' - last)) by ring.
    lra.
  - pose proof (no_elapsed now now rate ltac:(reflexivity)).
    pose proof (no_elapsed now' now' rate ltac:(reflexivity)). lra.
Qed.

(** X6.  Waiting never hurts: with a rate that is not negative, a call
    that is admitted at some clock reading is also admitted, from the
    same state, at any later clock reading; in both classes and in every
    state. *)
Theorem later_call_admitted (tb : TB.t) (lb : LB.t) (identifier : string)
    (now now' : Q) :
  now <= now' ->
  (0 <= TB.refill_rate tb ->
   fst (TB.allow_request tb identifier now) = true ->
   fst (TB.allow_request tb identifier now') = true) /\
  (0 <= LB.leak_rate lb ->
   fst (LB.allow_request lb identifier now) = true ->
   fst (LB.allow_request lb identifier now') = true).
Proof.
  intros Hle. split; intros Hr.
  - rewrite !tb_answer. unfold TB.new_tokens.
    pose proof (elapsed_monotone (TB.timestamps tb) identifier _ _ _ Hr Hle).
    py_cases; lra.
  - rewrite !lb_answer. unfold LB.level.
    pose proof (elapsed_monotone (LB.last_checked lb) identifier _ _ _ Hr Hle).
    py_cases; lra.
Qed.

Lemma later_call_admitted_witness :
  let tb := snd (TB.run token_limiter (replicate 5 ("u"%string, 10))) in
  let lb := snd (LB.run leaky_limiter (replicate 5 ("u"%string, 10))) in
  11 <= 20 /\
  fst (TB.allow_request tb "u" 20) = true /\
  fst (LB.allow_request lb "u" 20) = true.
Proof.
  intros tb lb.
  destruct (later_call_admitted tb lb "u" 11 20) as [Ht Hl].
  - vm_compute. discriminate.
  - split; [vm_compute; discriminate |]. split.
    + apply Ht; [vm_compute; discriminate | vm_compute; reflexivity].
    + apply Hl; [vm_compute; discriminate | vm_compute; reflexivity].
Defined.



(** X8.  First call of an identifier: when nothing is stored for it,
    the call is admitted exactly when the capacity is at least one,
    whatever the clock reading and the rate; if admitted, the call
    stores the capacity minus one as its tokens (token bucket), one as
    its level (leaky bucket), and the clock reading. *)
Theorem first_call (tb : TB.t) (lb : LB.t) (identifier : string) (now : Q) :
  TB.tokens tb !! identifier = None ->
  TB.timestamps tb !! identifier = None ->
  LB.water_level lb !! identifier = None ->
  LB.last_checked lb !! identifier = None ->
  (fst (TB.allow_request tb identifier now) = true <-> 1 <= TB.capacity tb) /\
  (fst (LB.allow_request lb identifier now) = true <-> 1 <= LB.capacity lb) /\
  (1 <= TB.capacity tb ->
   dict_get (TB.tokens (snd (TB.allow_request tb identifier now)))
     identifier 0 == TB.capacity tb - 1 /\
   TB.timestamps (snd (TB.allow_request tb identifier now)) !! identifier
     = Some now) /\
  (1 <= LB.capacity lb ->
   dict_get (LB.water_level (snd (LB.allow_request lb identifier now)))
     identifier 0 == 1 /\
   LB.last_checked (snd (LB.allow_request lb identifier now)) !! identifier
     = Some now).
Proof.
  intros Htok Hts Hlev Hlast.
  pose proof (no_elapsed now now (TB.refill_rate tb) ltac:(reflexivity)) as Hz.
  pose proof (no_elapsed now now (LB.leak_rate lb) ltac:(reflexivity)) as Hz'.
  assert (Hnew : TB.new_tokens tb identifier now == TB.capacity tb).
  { unfold TB.new_tokens.
    rewrite (dict_get_fresh _ _ _ Htok), (dict_get_fresh _ _ _ Hts).
    py_cases; lra. }
  assert (Hlevel : LB.level lb identifier now == 0).
  { unfold LB.level.
    rewrite (dict_get_fresh _ _ _ Hlev), (dict_get_fresh _ _ _ Hlast).
    py_cases; lra. }
  split; [| split; [| split]].
  - rewrite tb_answer. split; lra.
  - rewrite lb_answer. split; lra.
  - intros Hc. rewrite tb_admit by lra. cbn [snd TB.tokens TB.timestamps].
    rewrite dict_get_insert, lookup_insert_eq. split; [lra | done].
  - intros Hc. rewrite lb_admit by lra.
    cbn [snd LB.water_level LB.last_checked].
    rewrite dict_get_insert, lookup_insert_eq. split; [lra | done].
Qed.

Lemma first_call_witness :
  fst (TB.allow_request token_limiter "new" 42) = true /\
  fst (LB.allow_request leaky_limiter "new" 42) = true /\
  fst (TB.allow_request (TB.mk 0.5 1 ∅ ∅) "new" 42) = false.
Proof.
  destruct (first_call token_limiter leaky_limiter "new" 42)
    as (Ht & Hl & _); try reflexivity.
  destruct (first_call (TB.mk 0.5 1 ∅ ∅) leaky_limiter "new" 42)
    as (Ht' & _); try reflexivity.
  split; [apply Ht; vm_compute; discriminate |].
  split; [apply Hl; vm_compute; discriminate |].
  apply not_true_is_false. intros H. apply Ht' in H. vm_compute in H.
  by apply H.
Defined.

(** ** What is stored *)

Lemma tb_step_lookup identifier i now self :
  is_Some (TB.tokens (snd (TB.allow_request self i now)) !! identifier) <->
  is_Some (TB.tokens self !! identifier) \/
  (i = identifier /\ fst (TB.allow_request self i now) = true).
Proof.
  unfold TB.allow_request. destruct (py_lt _ 1); cbn [fst snd TB.tokens].
  - split; [by left | by intros [H | [_ H]]].
  - destruct (decide (i = identifier)) as [-> | Hne].
    + rewrite lookup_insert_eq. split; [by right | by eexists].
    + rewrite lookup_insert_ne by done.
      split; [by left | by intros [H | [H _]]].
Qed.

Lemma lb_step_lookup identifier i now self :
  is_Some (LB.water_level (snd (LB.allow_request self i now)) !! identifier)
  <->
  is_Some (LB.water_level self !! identifier) \/
  (i = identifier /\ fst (LB.allow_request self i now) = true).
Proof.
  unfold LB.allow_request. destruct (py_gt _ _); cbn [fst snd LB.water_level].
  - split; [by left | by intros [H | [_ H]]].
  - destruct (decide (i = identifier)) as [-> | Hne].
    + rewrite lookup_insert_eq. split; [by right | by eexists].
    + rewrite lookup_insert_ne by done.
      split; [by left | by intros [H | [H _]]].
Qed.

Lemma tb_run_lookup identifier calls : forall self,
  is_Some (TB.tokens (snd (TB.run self calls)) !! identifier) <->
  is_Some (TB.tokens self !! identifier) \/
  (0 < admitted identifier calls (fst (TB.run self calls)))%nat.
Proof.
  induction calls as [|[i now] calls IH]; intros self.
  - cbn. split; [by left | intros [H | H]; [done | lia]].
  - rewrite tb_run_cons. cbn [fst snd].
    rewrite IH, tb_step_lookup, admitted_cons.
    destruct (decide (i = identifier)) as [-> | Hne];
      [destruct (fst (TB.allow_request self identifier now)) |];
      cbn [Nat.add].
    + split; [intros _; right; lia | intros _; left; by right].
    + split; [intros [[H | [_ H]] | H] | intros [H | H]]; auto.
      discriminate H.
    + split; [intros [[H | [H _]] | H] | intros [H | H]]; auto.
      by destruct Hne.
Qed.

Lemma lb_run_lookup identifier calls : forall self,
  is_Some (LB.water_level (snd (LB.run self calls)) !! identifier) <->
  is_Some (LB.water_level self !! identifier) \/
  (0 < admitted identifier calls (fst (LB.run self calls)))%nat.
Proof.
  induction calls as [|[i now] calls IH]; intros self.
  - cbn. split; [by left | intros [H | H]; [done | lia]].
  - rewrite lb_run_cons. cbn [fst snd].
    rewrite IH, lb_step_lookup, admitted_cons.
    destruct (decide (i = identifier)) as [-> | Hne];
      [destruct (fst (LB.allow_request self identifier now)) |];
      cbn [Nat.add].
    + split; [intros _; right; lia | intros _; left; by right].
    + split; [intros [[H | [_ H]] | H] | intros [H | H]]; auto.
      discriminate H.
    + split; [intros [[H | [H _]] | H] | intros [H | H]]; auto.
      by destruct Hne.
Qed.

Lemma tb_step_in_step self i now :
  tb_in_step self -> tb_in_step (snd (TB.allow_request self i now)).
Proof.
  unfold tb_in_step, TB.allow_request. intros H.
  destruct (py_lt _ 1); cbn [snd TB.tokens TB.timestamps]; [done |].
  by rewrite !dom_insert_L, H.
Qed.

Lemma lb_step_in_step self i now :
  lb_in_step self -> lb_in_step (snd (LB.allow_request self i now)).
Proof.
  unfold lb_in_step, LB.allow_request. intros H.
  destruct (py_gt _ _); cbn [snd LB.water_level LB.last_checked]; [done |].
  by rewrite !dom_insert_L, H.
Qed.

Lemma tb_run_in_step calls : forall self,
  tb_in_step self -> tb_in_step (snd (TB.run self calls)).
Proof.
  induction calls as [|[i now] calls IH]; intros self H; [done |].
  rewrite tb_run_cons. cbn [snd]. by apply IH, tb_step_in_step.
Qed.

Lemma lb_run_in_step calls : forall self,
  lb_in_step self -> lb_in_step (snd (LB.run self calls)).
Proof.
  induction calls as [|[i now] calls IH]; intros self H; [done |].
  rewrite lb_run_cons. cbn [snd]. by apply IH, lb_step_in_step.
Qed.

(** X9.  What is stored: after any sequence of calls to a newly
    constructed object of either class, the two dictionaries have the
    same keys, and an identifier is a key exactly when at least one of
    its calls was admitted; rejected calls and identifiers never
    admitted leave no entry. *)
Theorem entries_of_admitted (capacity rate : Q) (calls : list (string * Q))
    (identifier : string) :
  let tb := snd (TB.run (TB.mk capacity rate ∅ ∅) calls) in
  let lb := snd (LB.run (LB.mk capacity rate ∅ ∅) calls) in
  dom (TB.tokens tb) = dom (TB.timestamps tb) /\
  dom (LB.water_level lb) = dom (LB.last_checked lb) /\
  (identifier ∈ dom (TB.tokens tb) <->
   (0 < admitted identifier calls
          (fst (TB.run (TB.mk capacity rate ∅ ∅) calls)))%nat) /\
  (identifier ∈ dom (LB.water_level lb) <->
   (0 < admitted identifier calls
          (fst (LB.run (LB.mk capacity rate ∅ ∅) calls)))%nat).
Proof.
  intros tb lb. split; [| split; [| split]].
  - by apply tb_run_in_step.
  - by apply lb_run_in_step.
  - rewrite elem_of_dom. unfold tb. rewrite tb_run_lookup.
    cbn [TB.tokens]. rewrite lookup_empty.
    split; [intros [Hsome | H]; [by destruct Hsome | done] | by right].
  - rewrite elem_of_dom. unfold lb. rewrite lb_run_lookup.
    cbn [LB.water_level]. rewrite lookup_empty.
    split; [intros [Hsome | H]; [by destruct Hsome | done] | by right].
Qed.

(** ** Rejected calls cost nothing *)

Lemma tb_rejected_unchanged self i now :
  fst (TB.allow_request self i now) = false ->
  snd (TB.allow_request self i now) = self.
Proof. unfold TB.allow_request. by destruct (py_lt _ 1). Qed.

Lemma lb_rejected_unchanged self i now :
  fst (LB.allow_request self i now) = false ->
  snd (LB.allow_request self i now) = self.
Proof. unfold LB.allow_request. by destruct (py_gt _ _). Qed.

Lemma tb_run_kept calls : forall self,
  TB.run self (kept calls (fst (TB.run self calls)))
    = (replicate (length (kept calls (fst (TB.run self calls)))) true,
       snd (TB.run self calls)).
Proof.
  induction calls as [|[i now] calls IH]; intros self; [done |].
  rewrite tb_run_cons. cbn [fst snd kept].
  destruct (fst (TB.allow_request self i now)) eqn:E.
  - rewrite tb_run_cons, E, IH. done.
  - rewrite <- (tb_rejected_unchanged _ _ _ E) at 1. apply IH.
Qed.

Lemma lb_run_kept calls : forall self,
  LB.run self (kept calls (fst (LB.run self calls)))
    = (replicate (length (kept calls (fst (LB.run self calls)))) true,
       snd (LB.run self calls)).
Proof.
  induction calls as [|[i now] calls IH]; intros self; [done |].
  rewrite lb_run_cons. cbn [fst snd kept].
  destruct (fst (LB.allow_request self i now)) eqn:E.
  - rewrite lb_run_cons, E, IH. done.
  - rewrite <- (lb_rejected_unchanged _ _ _ E) at 1. apply IH.
Qed.

(** X10.  Rejected calls cost nothing: for any object of either class
    and any sequence of calls, making only the calls that were admitted
    gets every one of them admitted again and leaves the object in the
    very same state; the rejected calls changed neither an answer nor
    what is stored. *)
Theorem rejected_calls_are_free (tb : TB.t) (lb : LB.t)
    (calls : list (string * Q)) :
  TB.run tb (kept calls (fst (TB.run tb calls)))
    = (replicate (length (kept calls (fst (TB.run tb calls)))) true,
       snd (TB.run tb calls)) /\
  LB.run lb (kept calls (fst (LB.run lb calls)))
    = (replicate (length (kept calls (fst (LB.run lb calls)))) true,
       snd (LB.run lb calls)).
Proof. split; [apply tb_run_kept | apply lb_run_kept]. Qed.

(** ** After a long idle time *)

Lemma tb_burst_then_reject identifier now n self :
  dict_get (TB.tokens self) identifier (TB.capacity self) == Qnat n ->
  Qnat n <= TB.capacity self ->
  dict_get (TB.timestamps self) identifier now == now ->
  fst (TB.run self (replicate (n + 1) (identifier, now)))
    = replicate n true ++ [false].
Proof.
  intros Htok Hcap Hts.
  rewrite replicate_add, tb_run_app. cbn [fst replicate].
  destruct (tb_burst_prefix identifier now 0 n self)
    as [Hres (Ha & Hb & _)]; try lra.
  rewrite Hres, tb_run_cons, tb_empty_rejects; done.
Qed.

Lemma lb_burst_then_reject identifier now n self :
  dict_get (LB.water_level self) identifier 0 == LB.capacity self - Qnat n ->
  Qnat n <= LB.capacity self ->
  dict_get (LB.last_checked self) identifier now == now ->
  fst (LB.run self (replicate (n + 1) (identifier, now)))
    = replicate n true ++ [false].
Proof.
  intros Hlev Hcap Hlast. pose proof (Qnat_nonneg n) as Hn.
  rewrite replicate_add, lb_run_app. cbn [fst replicate].
  destruct (lb_burst_prefix identifier now 0 n self)
    as [Hres (Ha & Hb & _ & Hd & _)]; try lra.
  rewrite Hres, lb_run_cons, lb_full_rejects; rewrite ?Hd; try done; lra.
Qed.



(** * The application *)

Lemma limiter_run_cons l identifier now rest :
  limiter_run l ((identifier, now) :: rest) =
    (fst (limiter_allow_request l identifier now)
       :: fst (limiter_run (snd (limiter_allow_request l identifier now))
                 rest),
     snd (limiter_run (snd (limiter_allow_request l identifier now)) rest)).
Proof.
  simpl. destruct (limiter_allow_request l identifier now) as [b l1].
  simpl. by destruct (limiter_run l1 rest).
Qed.

(** The object of the application answers as its class does. *)
Lemma limiter_run_token calls : forall tb,
  limiter_run (Token tb) calls
    = (fst (TB.run tb calls), Token (snd (TB.run tb calls))).
Proof.
  induction calls as [|[identifier now] calls IH]; intros tb; [done |].
  rewrite limiter_run_cons, tb_run_cons. cbn [limiter_allow_request fst snd].
  destruct (TB.allow_request tb identifier now) as [b tb1]. cbn [fst snd].
  by rewrite IH.
Qed.

Lemma limiter_run_leaky calls : forall lb,
  limiter_run (Leaky lb) calls
    = (fst (LB.run lb calls), Leaky (snd (LB.run lb calls))).
Proof.
  induction calls as [|[identifier now] calls IH]; intros lb; [done |].
  rewrite limiter_run_cons, lb_run_cons. cbn [limiter_allow_request fst snd].
  destruct (LB.allow_request lb identifier now) as [b lb1]. cbn [fst snd].
  by rewrite IH.
Qed.

Lemma api_response l args now :
  api l args now =
    (response_of
       (fst (limiter_allow_request l (args_get args "user" "anonymous") now)),
     snd (limiter_allow_request l (args_get args "user" "anonymous") now)).
Proof.
  unfold api, response_of.
  destruct (limiter_allow_request l _ now) as [[|] l1]; done.
Qed.

Lemma serve_run requests : forall l,
  serve l requests =
    (map response_of (fst (limiter_run l (calls_of_requests requests))),
     snd (limiter_run l (calls_of_requests requests))).
Proof.
  induction requests as [|[args now] requests IH]; intros l; [done |].
  cbn [serve calls_of_requests map fst snd].
  rewrite api_response, IH. fold (calls_of_requests requests).
  by rewrite limiter_run_cons.
Qed.

(** X12.  The view [api] reflects the limiter: for a limiter object of
    either class and any sequence of requests, the responses are, in
    order, status 200 with the message for each admitted call and status
    429 with the error for each rejected call, where each request is one
    call of [allow_request] for the first value of its argument [user],
    or for ["anonymous"] when it has none; the object is left as these
    calls leave it. *)
Theorem api_reflects_limiter (tb : TB.t) (lb : LB.t)
    (requests : list (list (string * string) * Q)) :
  serve (Token tb) requests =
    (map response_of (fst (TB.run tb (calls_of_requests requests))),
     Token (snd (TB.run tb (calls_of_requests requests)))) /\
  serve (Leaky lb) requests =
    (map response_of (fst (LB.run lb (calls_of_requests requests))),
     Leaky (snd (LB.run lb (calls_of_requests requests)))).
Proof.
  rewrite !serve_run, limiter_run_token, limiter_run_leaky. done.
Qed.

Lemma calls_of_anonymous now requests :
  Forall (fun r : list (string * string) * Q =>
            args_get r.1 "user" "anonymous" = "anonymous"%string /\ r.2 = now)
    requests ->
  calls_of_requests requests
    = replicate (length requests) ("anonymous"%string, now).
Proof.
  induction 1 as [|[args t] requests [Hid Ht] _ IH]; [done |].
  cbn [calls_of_requests map length replicate fst snd] in *.
  fold (calls_of_requests requests). by rewrite Hid, Ht, IH.
Qed.

(** X14.  Requests without the argument [user] share one bucket with
    the requests of the user ["anonymous"]: for either class of the
    application's limiter, six requests at one clock reading, each of
    which has no argument [user] or has ["anonymous"] as its first
    value, are answered 200 five times and then 429. *)
Theorem anonymous_requests_share_bucket (algo : string) (l : limiter)
    (now : Q) (requests : list (list (string * string) * Q)) :
  make_rate_limiter algo = Returned l ->
  length requests = 6%nat ->
  Forall (fun r : list (string * string) * Q =>
            args_get r.1 "user" "anonymous" = "anonymous"%string /\ r.2 = now)
    requests ->
  map status (fst (serve l requests))
    = [200; 200; 200; 200; 200; 429]%nat.
Proof.
  intros Hmake Hlen Hanon.
  rewrite serve_run, (calls_of_anonymous now) by done. rewrite Hlen.
  cbn [fst]. unfold make_rate_limiter, TB.init, LB.init in Hmake.
  destruct (String.eqb algo "token"); injection Hmake as <-.
  - rewrite limiter_run_token. cbn [fst].
    rewrite (tb_burst_then_reject "anonymous" now 5); [done | | |];
      cbn [TB.tokens TB.timestamps TB.capacity];
      rewrite ?dict_get_fresh by apply lookup_empty; try reflexivity.
    vm_compute. discriminate.
  - rewrite limiter_run_leaky. cbn [fst].
    rewrite (lb_burst_then_reject "anonymous" now 5); [done | | |];
      cbn [LB.water_level LB.last_checked LB.capacity];
      rewrite ?dict_get_fresh by apply lookup_empty; try reflexivity.
    vm_compute. discriminate.
Qed.

Lemma anonymous_requests_share_bucket_witness :
  let requests :=
    [([], 7); ([("user", "anonymous")], 7); ([("page", "2")], 7);
     ([("user", "anonymous"); ("user", "bob")], 7); ([], 7);
     ([("user", "anonymous")], 7)]%string in
  map status (fst (serve (Leaky leaky_limiter) requests))
    = [200; 200; 200; 200; 200; 429]%nat.
Proof.
  intros requests.
  apply (anonymous_requests_share_bucket "leaky" _ 7 requests);
    [reflexivity | reflexivity |].
  repeat (constructor; [split; reflexivity |]). constructor.
Defined.

(** * Calls that overlap *)

(** The reads followed at once by the writes are the method itself. *)
Lemma tb_call_split identifier now self :
  TB.allow_request self identifier now =
    match tb_reads identifier now self with
    | None => (false, self)
    | Some v => (true, tb_writes identifier now self v)
    end.
Proof. unfold TB.allow_request, tb_reads. by destruct (py_lt _ 1). Qed.

Lemma lb_call_split identifier now self :
  LB.allow_request self identifier now =
    match lb_reads identifier now self with
    | None => (false, self)
    | Some v => (true, lb_writes identifier now self v)
    end.
Proof. unfold LB.allow_request, lb_reads. by destruct (py_gt _ _). Qed.

Section SerialSchedule.
Context {St : Type}.
Variable reads : St -> option Q.
Variable writes : St -> Q -> St.
Variable call : St -> bool * St.
Hypothesis call_split : forall s,
  call s = match reads s with
           | None => (false, s)
           | Some v => (true, writes s v)
           end.

(** A call that runs its two parts in a row does what the method does,
    and returns. *)
Lemma step_twice (w : world St) k :
  pool w !! k = Some Ready ->
  step reads writes (step reads writes w k) k =
    mk_world (snd (call (shared w))) (<[k := Finished]> (pool w))
      (returned w ++ [fst (call (shared w))]).
Proof.
  intros Hready. pose proof (lookup_lt_Some _ _ _ Hready) as Hlt.
  rewrite call_split. unfold step at 2. rewrite Hready.
  destruct (reads (shared w)) as [v|]; unfold step;
    cbn [pool shared returned]; rewrite list_lookup_insert_eq by done.
  - cbn [fst snd]. by rewrite list_insert_insert_eq.
  - done.
Qed.

Lemma exec_serial order : forall w : world St,
  NoDup order ->
  Forall (fun k => pool w !! k = Some Ready) order ->
  shared (exec reads writes (serial order) w)
    = snd (repeat_call call (length order) (shared w)) /\
  returned (exec reads writes (serial order) w)
    = returned w ++ fst (repeat_call call (length order) (shared w)).
Proof.
  induction order as [|k order IH]; intros w Hnd Hready.
  - cbn. by rewrite app_nil_r.
  - apply NoDup_cons in Hnd as [Hk Hnd].
    apply Forall_cons in Hready as [Hrk Hready].
    change (exec reads writes (serial (k :: order)) w)
      with (exec reads writes (serial order)
              (step reads writes (step reads writes w k) k)).
    rewrite step_twice by done.
    destruct (IH (mk_world (snd (call (shared w)))
                    (<[k := Finished]> (pool w))
                    (returned w ++ [fst (call (shared w))])))
      as [Hs Hr]; [done | |].
    { cbn [pool]. apply Forall_forall. intros k' Hk'.
      rewrite list_lookup_insert_ne by (intros ->; done).
      by apply (proj1 (Forall_forall _ _) Hready). }
    cbn [shared returned] in Hs, Hr. rewrite Hs, Hr.
    cbn [length repeat_call].
    destruct (call (shared w)) as [b s1]. cbn [fst snd].
    destruct (repeat_call call (length order) s1) as [bs s2]. cbn [fst snd].
    by rewrite <- app_assoc.
Qed.

End SerialSchedule.

Lemma tb_repeat_call identifier now n : forall self,
  repeat_call (fun s => TB.allow_request s identifier now) n self
    = TB.run self (replicate n (identifier, now)).
Proof.
  induction n as [|n IH]; intros self; [done |].
  cbn [repeat_call replicate TB.run].
  destruct (TB.allow_request self identifier now) as [b s1]. by rewrite IH.
Qed.

Lemma lb_repeat_call identifier now n : forall self,
  repeat_call (fun s => LB.allow_request s identifier now) n self
    = LB.run self (replicate n (identifier, now)).
Proof.
  induction n as [|n IH]; intros self; [done |].
  cbn [repeat_call replicate LB.run].
  destruct (LB.allow_request self identifier now) as [b s1]. by rewrite IH.
Qed.

(** Calls of a new identifier made one after the other at one clock
    reading: the bucket admits until it is empty, respectively full,
    and rejects from then on. *)
Lemma tb_serial_answers C N identifier now tb :
  TB.capacity tb == Qnat C ->
  TB.tokens tb !! identifier = None ->
  TB.timestamps tb !! identifier = None ->
  fst (TB.run tb (replicate N (identifier, now)))
    = replicate (Nat.min N C) true ++ replicate (N - C) false.
Proof.
  intros Hcap Htok Hts. pose proof (Qnat_nonneg C) as HC.
  destruct (Nat.le_gt_cases N C) as [Hle | Hgt].
  - pose proof (Qnat_add N (C - N)) as HN.
    replace (N + (C - N))%nat with C in HN by lia.
    pose proof (Qnat_nonneg (C - N)) as Hm.
    rewrite Nat.min_l by done.
    replace (N - C)%nat with 0%nat by lia. cbn [replicate].
    rewrite app_nil_r.
    apply (tb_burst_prefix identifier now (Qnat (C - N)) N tb);
      rewrite ?(dict_get_fresh _ _ _ Htok), ?(dict_get_fresh _ _ _ Hts);
      lra.
  - rewrite Nat.min_r by lia.
    replace N with (C + (N - C))%nat at 1 by lia.
    rewrite replicate_add, tb_run_app. cbn [fst].
    destruct (tb_burst_prefix identifier now 0 C tb)
      as [Hres (Ha & Hb & _)];
      rewrite ?(dict_get_fresh _ _ _ Htok), ?(dict_get_fresh _ _ _ Hts);
      try lra.
    rewrite Hres, tb_rejects_repeat; [done |].
    by apply tb_empty_rejects.
Qed.

Lemma lb_serial_answers C N identifier now lb :
  LB.capacity lb == Qnat C ->
  LB.water_level lb !! identifier = None ->
  LB.last_checked lb !! identifier = None ->
  fst (LB.run lb (replicate N (identifier, now)))
    = replicate (Nat.min N C) true ++ replicate (N - C) false.
Proof.
  intros Hcap Hlev Hlast. pose proof (Qnat_nonneg C) as HC.
  destruct (Nat.le_gt_cases N C) as [Hle | Hgt].
  - pose proof (Qnat_add N (C - N)) as HN.
    replace (N + (C - N))%nat with C in HN by lia.
    pose proof (Qnat_nonneg (C - N)) as Hm.
    rewrite Nat.min_l by done.
    replace (N - C)%nat with 0%nat by lia. cbn [replicate].
    rewrite app_nil_r.
    apply (lb_burst_prefix identifier now (Qnat (C - N)) N lb);
      rewrite ?(dict_get_fresh _ _ _ Hlev), ?(dict_get_fresh _ _ _ Hlast);
      lra.
  - rewrite Nat.min_r by lia.
    replace N with (C + (N - C))%nat at 1 by lia.
    rewrite replicate_add, lb_run_app. cbn [fst].
    destruct (lb_burst_prefix identifier now 0 C lb)
      as [Hres (Ha & Hb & _ & Hd & _)];
      rewrite ?(dict_get_fresh _ _ _ Hlev), ?(dict_get_fresh _ _ _ Hlast);
      try lra.
    rewrite Hres, lb_rejects_repeat; [done |].
    apply lb_full_rejects; rewrite ?Hd; try done; lra.
Qed.

Lemma count_true_replicate a b :
  length (filter (fun x : bool => x = true)
            (replicate a true ++ replicate b false)) = a.
Proof.
  rewrite filter_app, length_app.
  assert (Ha : length (filter (fun x : bool => x = true) (replicate a true))
               = a).
  { induction a as [|a IH]; [done |].
    rewrite replicate_S, filter_cons_True by done. cbn [length].
    by rewrite IH. }
  assert (Hb : length (filter (fun x : bool => x = true) (replicate b false))
               = 0%nat).
  { induction b as [|b IH]; [done |].
    by rewrite replicate_S, filter_cons_False. }
  rewrite Ha, Hb. lia.
Qed.

Lemma start_ready {St : Type} (s : St) N order :
  Forall (fun k => (k < N)%nat) order ->
  Forall (fun k => pool (start s N) !! k = Some Ready) order.
Proof.
  intros H. eapply Forall_impl; [exact H |].
  intros k Hk. cbn [start pool]. by apply lookup_replicate_2.
Qed.

(** C9, as the code has it.  Neither class serializes its calls; what
    holds is the case of calls that do not overlap.  With a
    whole-number capacity [C], when [N] calls of an identifier without
    an entry, all at one clock reading, run one after the other (each
    call does its reads and its writes in a row), in any order of the
    calls, all of them return, the first [min N C] to return are
    admitted and the others are rejected, and the object is left as
    [N] successive calls leave it; in both classes. *)
Theorem serial_calls_admit_min (C N : nat) (identifier : string) (now : Q)
    (tb : TB.t) (lb : LB.t) (order : list nat) :
  TB.capacity tb == Qnat C ->
  TB.tokens tb !! identifier = None ->
  TB.timestamps tb !! identifier = None ->
  LB.capacity lb == Qnat C ->
  LB.water_level lb !! identifier = None ->
  LB.last_checked lb !! identifier = None ->
  NoDup order ->
  length order = N ->
  Forall (fun k => (k < N)%nat) order ->
  let wt := exec (tb_reads identifier now) (tb_writes identifier now)
              (serial order) (start tb N) in
  let wl := exec (lb_reads identifier now) (lb_writes identifier now)
              (serial order) (start lb N) in
  (returned wt = replicate (Nat.min N C) true ++ replicate (N - C) false /\
   admissions wt = Nat.min N C /\
   shared wt = snd (TB.run tb (replicate N (identifier, now)))) /\
  (returned wl = replicate (Nat.min N C) true ++ replicate (N - C) false /\
   admissions wl = Nat.min N C /\
   shared wl = snd (LB.run lb (replicate N (identifier, now)))).
Proof.
  intros Hcap Htok Hts Hcap' Hlev Hlast Hnd Hlen Hlt wt wl. split.
  - destruct (exec_serial (tb_reads identifier now) (tb_writes identifier now)
                (fun s => TB.allow_request s identifier now)
                (tb_call_split identifier now) order (start tb N) Hnd
                (start_ready tb N order Hlt)) as [Hs Hr].
    fold wt in Hs, Hr. cbn [start shared returned] in Hs, Hr.
    rewrite tb_repeat_call, Hlen in Hs, Hr.
    rewrite (tb_serial_answers C) in Hr by done. cbn [app] in Hr.
    split; [done |]. split; [| done].
    unfold admissions. rewrite Hr. apply count_true_replicate.
  - destruct (exec_serial (lb_reads identifier now) (lb_writes identifier now)
                (fun s => LB.allow_request s identifier now)
                (lb_call_split identifier now) order (start lb N) Hnd
                (start_ready lb N order Hlt)) as [Hs Hr].
    fold wl in Hs, Hr. cbn [start shared returned] in Hs, Hr.
    rewrite lb_repeat_call, Hlen in Hs, Hr.
    rewrite (lb_serial_answers C) in Hr by done. cbn [app] in Hr.
    split; [done |]. split; [| done].
    unfold admissions. rewrite Hr. apply count_true_replicate.
Qed.

Lemma serial_calls_admit_min_witness :
  let order := [6; 0; 5; 1; 4; 2; 3]%nat in
  returned (exec (tb_reads "u" 3) (tb_writes "u" 3) (serial order)
              (start token_limiter 7))
    = [true; true; true; true; true; false; false] /\
  admissions (exec (lb_reads "u" 3) (lb_writes "u" 3) (serial order)
                (start leaky_limiter 7)) = 5%nat.
Proof.
  intros order.
  destruct (serial_calls_admit_min 5 7 "u" 3 token_limiter leaky_limiter order)
    as [(Ht & _) (_ & Hl & _)]; try reflexivity.
  - apply (bool_decide_unpack _). vm_compute. exact I.
  - apply (bool_decide_unpack _). vm_compute. exact I.
  - split; [exact Ht | exact Hl].
Defined.

(** C9, as stated, fails.  With capacity 1, two calls of one identifier
    at one clock reading both read before either writes: each sees the
    one token, respectively the empty bucket, and both are admitted,
    where one admission is claimed. *)
Lemma overlapping_calls_both_admitted :
  ~ tb_serialized 1 2 "u" 0 [0; 1; 0; 1]%nat /\
  ~ lb_serialized 1 2 "u" 0 [0; 1; 0; 1]%nat.
Proof.
  split; intros H.
  - specialize (H eq_refl). vm_compute in H. discriminate H.
  - specialize (H eq_refl). vm_compute in H. discriminate H.
Qed.
